(** * EKF-SLAM estimator of nuslam (ekf_slam.cpp): model and properties

    The C++ class [ekf_slam::Slam] keeps a mean vector [prev_state] and a
    covariance matrix [sigma] (Eigen dense objects) and updates them in
    [MotionModelUpdate] (prediction) and [MeasurmentModelUpdate] (correction).

    Modelling conventions.
    - A [double] is a real number and arithmetic is exact.  A division whose
      divisor is zero has no real value (IEEE gives inf or NaN): it ends the
      computation with [NotFinite].
    - Eigen objects carry their run-time sizes.  Every size or index check
      that Eigen performs with [eigen_assert] is written out; a failed check
      ends the computation with [EigenAssert].
    - [std::vector::at] out of range ends the computation with [OutOfRange].
    - The process-wide Mersenne twister is an explicit stream of standard
      normal draws together with the number of draws made so far. *)

From Stdlib Require Import Reals Lra Lia List ZArith Bool Arith.
Import ListNotations.

Local Open Scope R_scope.

(** ** Outcomes of a computation *)

Inductive error : Type :=
| EigenAssert
| OutOfRange
| NotFinite
| IntOverflow.

Inductive result (A : Type) : Type :=
| Ok (a : A)
| Err (e : error).

Arguments Ok {A} a.
Arguments Err {A} e.

Definition bind {A B : Type} (m : result A) (k : A -> result B) : result B :=
  match m with
  | Ok a => k a
  | Err e => Err e
  end.

Definition rmap {A B : Type} (f : A -> B) (m : result A) : result B :=
  bind m (fun a => Ok (f a)).

Definition require (b : bool) (e : error) : result unit :=
  if b then Ok tt else Err e.

Declare Scope result_scope.
Delimit Scope result_scope with result.
Notation "x <- m ;; k" := (bind m (fun x => k))
  (at level 61, m at next level, right associativity) : result_scope.
Notation "' pat <- m ;; k" := (bind m (fun x => match x with pat => k end))
  (at level 61, pat pattern, m at next level, right associativity) : result_scope.
Local Open Scope result_scope.

(** Floating-point division: no real result when the divisor is zero. *)
Definition fdiv (a b : R) : result R :=
  if Req_dec_T b 0 then Err NotFinite else Ok (a / b).

(** ** Finite sums *)

Fixpoint sum_n (n : nat) (f : nat -> R) : R :=
  match n with
  | O => 0
  | S k => sum_n k f + f k
  end.

(** ** Eigen dense objects *)

Module Eigen.

(** [Eigen::MatrixXd]; [Eigen::VectorXd] is the case [cols = 1]. *)
Record MatrixXd : Type := mkMatrix {
  rows : nat;
  cols : nat;
  coeff : nat -> nat -> R
}.

(** [Eigen::Matrix3d], [Eigen::Vector3d] and [Eigen::Vector2d]: the size is
    part of the type. *)
Record Matrix3d : Type := mkMatrix3d {
  m00 : R; m01 : R; m02 : R;
  m10 : R; m11 : R; m12 : R;
  m20 : R; m21 : R; m22 : R
}.

Record Vector3d : Type := mkVector3d { v0 : R; v1 : R; v2 : R }.

Record Vector2d : Type := mkVector2d { z0 : R; z1 : R }.

Definition coeff3 (M : Matrix3d) (i j : nat) : R :=
  match i, j with
  | 0%nat, 0%nat => m00 M | 0%nat, 1%nat => m01 M | 0%nat, 2%nat => m02 M
  | 1%nat, 0%nat => m10 M | 1%nat, 1%nat => m11 M | 1%nat, 2%nat => m12 M
  | 2%nat, 0%nat => m20 M | 2%nat, 1%nat => m21 M | 2%nat, 2%nat => m22 M
  | _, _ => 0
  end.

Definition Zero3 : Matrix3d := mkMatrix3d 0 0 0 0 0 0 0 0 0.

Definition Zero3v : Vector3d := mkVector3d 0 0 0.

Definition of_Matrix3d (M : Matrix3d) : MatrixXd := mkMatrix 3 3 (coeff3 M).

Definition of_Vector2d (v : Vector2d) : MatrixXd :=
  mkMatrix 2 1 (fun i _ => match i with 0%nat => z0 v | _ => z1 v end).

Definition sub2 (a b : Vector2d) : Vector2d :=
  mkVector2d (z0 a - z0 b) (z1 a - z1 b).

(** Sizes handed to Eigen are signed; a negative one fails the check. *)
Definition Zero (r c : Z) : result MatrixXd :=
  _ <- require ((0 <=? r)%Z && (0 <=? c)%Z) EigenAssert ;;
  Ok (mkMatrix (Z.to_nat r) (Z.to_nat c) (fun _ _ => 0)).

Definition Identity (r c : Z) : result MatrixXd :=
  _ <- require ((0 <=? r)%Z && (0 <=? c)%Z) EigenAssert ;;
  Ok (mkMatrix (Z.to_nat r) (Z.to_nat c)
        (fun i j => if (i =? j)%nat then 1 else 0)).

(** [resize]: the new storage is not initialised; [fresh] is what it holds. *)
Definition resize (fresh : nat -> nat -> R) (r c : Z) : result MatrixXd :=
  _ <- require ((0 <=? r)%Z && (0 <=? c)%Z) EigenAssert ;;
  Ok (mkMatrix (Z.to_nat r) (Z.to_nat c) fresh).

Definition scale (M : MatrixXd) (k : R) : MatrixXd :=
  mkMatrix (rows M) (cols M) (fun i j => coeff M i j * k).

Definition transpose (M : MatrixXd) : MatrixXd :=
  mkMatrix (cols M) (rows M) (fun i j => coeff M j i).

(** [M(i,j)] and [v(i)], read and write. *)
Definition at2 (M : MatrixXd) (i j : nat) : result R :=
  _ <- require ((i <? rows M)%nat && (j <? cols M)%nat) EigenAssert ;;
  Ok (coeff M i j).

Definition at1 (v : MatrixXd) (i : nat) : result R := at2 v i 0.

Definition set2 (M : MatrixXd) (i j : nat) (x : R) : result MatrixXd :=
  _ <- require ((i <? rows M)%nat && (j <? cols M)%nat) EigenAssert ;;
  Ok (mkMatrix (rows M) (cols M)
        (fun a b => if ((a =? i)%nat && (b =? j)%nat) then x else coeff M a b)).

Definition set1 (v : MatrixXd) (i : nat) (x : R) : result MatrixXd :=
  set2 v i 0 x.

Definition same_size (A B : MatrixXd) : bool :=
  ((rows A =? rows B)%nat && (cols A =? cols B)%nat).

Definition add (A B : MatrixXd) : result MatrixXd :=
  _ <- require (same_size A B) EigenAssert ;;
  Ok (mkMatrix (rows A) (cols A) (fun i j => coeff A i j + coeff B i j)).

Definition sub (A B : MatrixXd) : result MatrixXd :=
  _ <- require (same_size A B) EigenAssert ;;
  Ok (mkMatrix (rows A) (cols A) (fun i j => coeff A i j - coeff B i j)).

Definition mul (A B : MatrixXd) : result MatrixXd :=
  _ <- require (cols A =? rows B)%nat EigenAssert ;;
  Ok (mkMatrix (rows A) (cols B)
        (fun i j => sum_n (cols A) (fun k => coeff A i k * coeff B k j))).

(** Writing [B] into the block of [M] that starts at [(r0, c0)] and has
    [nr] rows and [nc] columns ([block(...) = B], the corner accessors). *)
Definition in_block (r0 c0 nr nc i j : nat) : bool :=
  ((r0 <=? i) && (i <? r0 + nr) && (c0 <=? j) && (j <? c0 + nc))%nat.

Definition block_ok (M : MatrixXd) (r0 c0 nr nc : Z) : bool :=
  ((0 <=? r0) && (0 <=? nr) && (r0 <=? Z.of_nat (rows M) - nr) &&
   (0 <=? c0) && (0 <=? nc) && (c0 <=? Z.of_nat (cols M) - nc))%Z.

Definition write_block (M : MatrixXd) (r0 c0 nr nc : nat)
    (B : nat -> nat -> R) : MatrixXd :=
  mkMatrix (rows M) (cols M)
    (fun i j => if in_block r0 c0 nr nc i j
                then B (i - r0)%nat (j - c0)%nat else coeff M i j).

Definition set_block (M : MatrixXd) (r0 c0 nr nc : Z) (B : MatrixXd)
    : result MatrixXd :=
  _ <- require (block_ok M r0 c0 nr nc) EigenAssert ;;
  _ <- require ((Z.to_nat nr =? rows B)%nat && (Z.to_nat nc =? cols B)%nat)
         EigenAssert ;;
  Ok (write_block M (Z.to_nat r0) (Z.to_nat c0) (Z.to_nat nr) (Z.to_nat nc)
        (coeff B)).

Definition set_block_zero (M : MatrixXd) (r0 c0 nr nc : Z) : result MatrixXd :=
  _ <- require (block_ok M r0 c0 nr nc) EigenAssert ;;
  Ok (write_block M (Z.to_nat r0) (Z.to_nat c0) (Z.to_nat nr) (Z.to_nat nc)
        (fun _ _ => 0)).

(** The comma initialiser [M << B1, B2, ...] with matrix operands: blocks
    are laid out left to right and wrap to the next block row when the
    current one is full.  Its state is (m_row, m_col, m_currentBlockRows). *)
Record comma : Type := mkComma {
  xpr : MatrixXd;
  m_row : nat;
  m_col : nat;
  m_currentBlockRows : nat
}.

Definition comma_first (M B : MatrixXd) : result comma :=
  _ <- require ((rows B <=? rows M)%nat && (cols B <=? cols M)%nat)
         EigenAssert ;;
  Ok (mkComma (write_block M 0 0 (rows B) (cols B) (coeff B))
        0 (cols B) (rows B)).

Definition comma_next (s : comma) (B : MatrixXd) : result comma :=
  let wrap := ((m_col s =? cols (xpr s))%nat &&
               (negb (cols B =? 0)%nat ||
                negb (rows B =? m_currentBlockRows s)%nat)) in
  let row := if wrap then (m_row s + m_currentBlockRows s)%nat else m_row s in
  let col := if wrap then 0%nat else m_col s in
  let cur := if wrap then rows B else m_currentBlockRows s in
  _ <- require (negb wrap || (row + cur <=? rows (xpr s))%nat) EigenAssert ;;
  _ <- require (col + cols B <=? cols (xpr s))%nat EigenAssert ;;
  _ <- require (cur =? rows B)%nat EigenAssert ;;
  Ok (mkComma (write_block (xpr s) row col (rows B) (cols B) (coeff B))
        row (col + cols B) cur).

Fixpoint comma_rest (s : comma) (Bs : list MatrixXd) : result comma :=
  match Bs with
  | [] => Ok s
  | B :: Bs' => s' <- comma_next s B ;; comma_rest s' Bs'
  end.

Definition comma_finished (s : comma) : result MatrixXd :=
  _ <- require ((((m_row s + m_currentBlockRows s =? rows (xpr s))%nat
                  || (cols (xpr s) =? 0)%nat))
                && (m_col s =? cols (xpr s))%nat) EigenAssert ;;
  Ok (xpr s).

Definition comma_init (M : MatrixXd) (B : MatrixXd) (Bs : list MatrixXd)
    : result MatrixXd :=
  s <- comma_first M B ;;
  s' <- comma_rest s Bs ;;
  comma_finished s'.

(** Determinant by expansion along the first row, and the inverse as the
    adjugate over the determinant.  A singular matrix has no finite
    inverse. *)
Definition minor (f : nat -> nat -> R) (i j : nat) : nat -> nat -> R :=
  fun a b => f (if (a <? i)%nat then a else S a) (if (b <? j)%nat then b else S b).

Fixpoint det (n : nat) (f : nat -> nat -> R) : R :=
  match n with
  | O => 1
  | S k => sum_n (S k) (fun j => (-1) ^ j * f 0%nat j * det k (minor f 0 j))
  end.

Definition inverse (M : MatrixXd) : result MatrixXd :=
  _ <- require (rows M =? cols M)%nat EigenAssert ;;
  let n := rows M in
  let d := det n (coeff M) in
  if Req_dec_T d 0 then Err NotFinite
  else Ok (mkMatrix n n
             (fun i j => (-1) ^ (i + j) * det (n - 1) (minor (coeff M) j i) / d)).

End Eigen.

Import Eigen.

(** ** rigid2d *)

Module rigid2d.

(** [struct Twist2D]: angular z, linear x and y. *)
Record Twist2D : Type := mkTwist2D { wz : R; vx : R; vy : R }.

(** The least integer that is not below [t]. *)
Definition ceilZ (t : R) : Z := (1 - up (- t))%Z.

(** Modelled from the spec: [normalize_angle] is called by [sensorModel],
    but rigid2d.hpp does not declare it and its definition is missing.  The
    spec says it maps any real [a] into (-pi, pi] by wrap-around: the result
    differs from [a] by a whole number of turns. *)
Definition normalize_angle (a : R) : R :=
  a - 2 * PI * IZR (ceilZ ((a - PI) / (2 * PI))).

End rigid2d.

Import rigid2d.

(** [atan2] of the C library on real arguments. *)
Definition atan2 (y x : R) : R :=
  if Rlt_dec 0 x then atan (y / x)
  else if Rlt_dec x 0 then
         (if Rle_dec 0 y then atan (y / x) + PI else atan (y / x) - PI)
  else if Rlt_dec 0 y then PI / 2
  else if Rlt_dec y 0 then - (PI / 2)
  else 0.

(** ** The random source and uninitialised storage *)

Record World : Type := mkWorld {
  normal_draws : nat -> R;      (* successive values of d(get_random()) *)
  drawn : nat;                  (* how many have been consumed *)
  fresh : nat -> nat -> R       (* contents of storage that was never written *)
}.

Definition sampleNormalDistribution (w : World) : R * World :=
  (normal_draws w (drawn w),
   mkWorld (normal_draws w) (S (drawn w)) (fresh w)).

(** ** Cholesky factor of a 3x3 matrix

    [A.llt().matrixL()] for a [Matrix3d]: Eigen copies [A] and runs the
    unblocked in-place factorisation, column by column; as soon as a pivot
    [x] satisfies [x <= 0] it stops and leaves the rest of the copy as it
    is.  [matrixL()] is the lower triangle of that copy, and the dense
    matrix built from it has zeros above the diagonal. *)

Definition llt_inplace (a : Matrix3d) : Matrix3d :=
  (* k = 0 *)
  let x0 := m00 a in
  if Rle_dec x0 0 then a else
  let l00 := sqrt x0 in
  let l10 := m10 a / l00 in
  let l20 := m20 a / l00 in
  (* k = 1 *)
  let x1 := m11 a - l10 * l10 in
  if Rle_dec x1 0
  then mkMatrix3d l00 (m01 a) (m02 a) l10 (m11 a) (m12 a) l20 (m21 a) (m22 a)
  else
  let l11 := sqrt x1 in
  let l21 := (m21 a - l20 * l10) / l11 in
  (* k = 2 *)
  let x2 := m22 a - (l20 * l20 + l21 * l21) in
  if Rle_dec x2 0
  then mkMatrix3d l00 (m01 a) (m02 a) l10 l11 (m12 a) l20 l21 (m22 a)
  else
  mkMatrix3d l00 (m01 a) (m02 a) l10 l11 (m12 a) l20 l21 (sqrt x2).

Definition lower (a : Matrix3d) : Matrix3d :=
  mkMatrix3d (m00 a) 0 0 (m10 a) (m11 a) 0 (m20 a) (m21 a) (m22 a).

Definition llt_matrixL (a : Matrix3d) : Matrix3d := lower (llt_inplace a).

(** ** nuslam::TurtleMap *)

Record Point : Type := mkPoint { px : R; py : R; pz : R }.

Record TurtleMap : Type := mkTurtleMap {
  centers : list Point;
  radii : list R
}.

(** [std::vector::at] *)
Definition vector_at {A : Type} (v : list A) (i : nat) : result A :=
  match nth_error v i with
  | Some a => Ok a
  | None => Err OutOfRange
  end.

(** ** class Slam *)

Record Slam : Type := mkSlam {
  Qnoise : Matrix3d;
  Rnoise : Matrix3d;
  state_size : Z;
  prev_state : MatrixXd;
  sigma : MatrixXd
}.

Definition with_prev_state (st : Slam) (mu : MatrixXd) : Slam :=
  mkSlam (Qnoise st) (Rnoise st) (state_size st) mu (sigma st).

Definition with_sigma (st : Slam) (Sg : MatrixXd) : Slam :=
  mkSlam (Qnoise st) (Rnoise st) (state_size st) (prev_state st) Sg.

(** [int] arithmetic: a value outside the 32-bit range is an overflow. *)
Definition int_ok (z : Z) : bool := ((- 2 ^ 31 <=? z) && (z <? 2 ^ 31))%Z.

(** [Slam::Slam(int num_landmarks, Matrix3d q_var, Matrix3d r_var)] *)
Definition Slam_new (w : World) (num_landmarks : Z) (q_var r_var : Matrix3d)
    : result Slam :=
  _ <- require (int_ok (2 * num_landmarks) && int_ok (3 + 2 * num_landmarks))
         IntOverflow ;;
  let n := (3 + 2 * num_landmarks)%Z in
  let l2 := (2 * num_landmarks)%Z in
  mu0 <- resize (fresh w) n 1 ;;
  let mu := mkMatrix (rows mu0) (cols mu0) (fun _ _ => 0) in
  S0 <- resize (fresh w) n n ;;
  S1 <- set_block_zero S0 0 0 3 3 ;;
  S2 <- set_block_zero S1 0 (Z.of_nat (cols S1) - l2) 3 l2 ;;
  S3 <- set_block_zero S2 (Z.of_nat (rows S2) - l2) 0 l2 3 ;;
  I <- Identity l2 l2 ;;
  S4 <- set_block S3 (Z.of_nat (rows S3) - l2) (Z.of_nat (cols S3) - l2) l2 l2
          (scale I 10000) ;;
  Ok (mkSlam q_var r_var n mu S4).

(** [Slam::getStateNoise] *)
Definition getStateNoise (st : Slam) (w : World) : Vector3d * World :=
  let l := llt_matrixL (Qnoise st) in
  let '(s0, w1) := sampleNormalDistribution w in
  let '(s1, w2) := sampleNormalDistribution w1 in
  let '(s2, w3) := sampleNormalDistribution w2 in
  (mkVector3d (m00 l * s0 + m01 l * s1 + m02 l * s2)
              (m10 l * s0 + m11 l * s1 + m12 l * s2)
              (m20 l * s0 + m21 l * s1 + m22 l * s2),
   w3).

(** [Slam::getMeasurementNoise]: the third entry of the returned vector is
    never written. *)
Definition getMeasurementNoise (st : Slam) (w : World) : Vector3d * World :=
  let l := llt_matrixL (Rnoise st) in
  let '(s0, w1) := sampleNormalDistribution w in
  let '(s1, w2) := sampleNormalDistribution w1 in
  (mkVector3d (m00 l * s0 + m01 l * s1)
              (m10 l * s0 + m11 l * s1)
              (fresh w 2%nat 0%nat),
   w2).

(** [Slam::updateCovarPrediction] *)
Definition updateCovarPrediction (st : Slam) (dupdate : Vector3d) : result Slam :=
  let n := state_size st in
  Gt0 <- Zero n n ;;
  Gt1 <- set2 Gt0 0 0 (v0 dupdate) ;;
  Gt2 <- set2 Gt1 1 0 (v1 dupdate) ;;
  Gt3 <- set2 Gt2 2 0 (v2 dupdate) ;;
  I <- Identity n n ;;
  Gt <- add Gt3 I ;;
  Qbar0 <- Zero n n ;;
  Qbar <- set_block Qbar0 0 0 3 3 (of_Matrix3d (Qnoise st)) ;;
  GS <- mul Gt (sigma st) ;;
  GSG <- mul GS (transpose Gt) ;;
  Sg' <- add GSG Qbar ;;
  Ok (with_sigma st Sg').

(** The two branches of [Slam::MotionModelUpdate] that fill [update] and
    [dupdate]. *)
Definition motion_increment (tw : Twist2D) (th : R) : result (Vector3d * Vector3d) :=
  if Req_dec_T (wz tw) 0 then
    Ok (mkVector3d 0 (vx tw * cos th) (vy tw * sin th),
        mkVector3d 0 (- vx tw * sin th) (vx tw * cos th))
  else
    vel_ratio <- fdiv (vx tw) (wz tw) ;;
    Ok (mkVector3d (wz tw)
          (- vel_ratio * sin th + vel_ratio * sin (th + wz tw))
          (vel_ratio * cos th - vel_ratio * cos (th + wz tw)),
        mkVector3d 0
          (- vel_ratio * cos th + vel_ratio * cos (th + wz tw))
          (- vel_ratio * sin th + vel_ratio * sin (th + wz tw))).

(** [Slam::MotionModelUpdate], lines 55-90: what follows the noise draw. *)
Definition predict_with_noise (st : Slam) (noise : Vector3d) (tw : Twist2D)
    : result Slam :=
  th <- at1 (prev_state st) 0 ;;
  '(update, dupdate) <- motion_increment tw th ;;
  p0 <- at1 (prev_state st) 0 ;;
  mu1 <- set1 (prev_state st) 0 (p0 + (v0 update + v0 noise)) ;;
  p1 <- at1 mu1 1 ;;
  mu2 <- set1 mu1 1 (p1 + (v1 update + v1 noise)) ;;
  p2 <- at1 mu2 2 ;;
  mu3 <- set1 mu2 2 (p2 + (v2 update + v2 noise)) ;;
  updateCovarPrediction (with_prev_state st mu3) dupdate.

(** [Slam::MotionModelUpdate] *)
Definition MotionModelUpdate (st : Slam) (w : World) (tw : Twist2D)
    : result (Slam * World) :=
  let '(noise, w') := getStateNoise st w in
  st' <- predict_with_noise st noise tw ;;
  Ok (st', w').

(** [Slam::getRobotState] *)
Definition getRobotState (st : Slam) : result (list R) :=
  a <- at1 (prev_state st) 0 ;;
  b <- at1 (prev_state st) 1 ;;
  c <- at1 (prev_state st) 2 ;;
  Ok [a; b; c].

(** [Slam::sensorModel] *)
Definition sensorModel (st : Slam) (x y : R) (noise : Vector3d) : result Vector2d :=
  p1 <- at1 (prev_state st) 1 ;;
  let x_diff := x - p1 in
  p2 <- at1 (prev_state st) 2 ;;
  let y_diff := y - p2 in
  let range := sqrt (x_diff * x_diff + y_diff * y_diff) + v0 noise in
  p0 <- at1 (prev_state st) 0 ;;
  let bearing := atan2 y_diff x_diff - p0 + v1 noise in
  Ok (mkVector2d range (normalize_angle bearing)).

(** [Slam::getHMatrix]: the two coefficient blocks, then the assembly. *)
Definition getHMatrix_pt1 (x y d : R) : result MatrixXd :=
  let sqd := sqrt d in
  a01 <- fdiv (- x) sqd ;;
  a02 <- fdiv (- y) sqd ;;
  a11 <- fdiv y d ;;
  a12 <- fdiv x d ;;
  Ok (mkMatrix 2 3
        (fun i j => match i, j with
                    | 0%nat, 0%nat => 0  | 0%nat, 1%nat => a01 | 0%nat, 2%nat => a02
                    | 1%nat, 0%nat => -1 | 1%nat, 1%nat => a11 | 1%nat, 2%nat => a12
                    | _, _ => 0
                    end)).

Definition getHMatrix_pt3 (x y d : R) : result MatrixXd :=
  let sqd := sqrt d in
  b00 <- fdiv x sqd ;;
  b01 <- fdiv y sqd ;;
  b10 <- fdiv (- y) d ;;
  b11 <- fdiv x d ;;
  Ok (mkMatrix 2 2
        (fun i j => match i, j with
                    | 0%nat, 0%nat => b00 | 0%nat, 1%nat => b01
                    | 1%nat, 0%nat => b10 | 1%nat, 1%nat => b11
                    | _, _ => 0
                    end)).

Definition getHMatrix (st : Slam) (w : World) (x y d : R) (id : Z)
    : result MatrixXd :=
  Hi <- resize (fresh w) 2 (state_size st) ;;
  pt1 <- getHMatrix_pt1 x y d ;;
  pt2 <- Zero 2 (2 * id) ;;
  pt3 <- getHMatrix_pt3 x y d ;;
  pt4 <- Zero 2 (state_size st - 3 - 2 * id) ;;
  comma_init Hi pt1 [pt2; pt3; pt4].

(** Line 193: [sigma * Hi^T * (Hi * sigma * Hi^T + Rnoise).inverse()]. *)
Definition kalmanGain (Sg Hi : MatrixXd) (Rn : Matrix3d) : result MatrixXd :=
  SHt <- mul Sg (transpose Hi) ;;
  HS <- mul Hi Sg ;;
  HSHt <- mul HS (transpose Hi) ;;
  Sum <- add HSHt (of_Matrix3d Rn) ;;
  Inv <- inverse Sum ;;
  mul SHt Inv.

(** The two measurements of one loop iteration and their difference, which
    line 196 multiplies by the gain. *)
Definition measurements (st : Slam) (w : World) (c : Point) (landmark_index : nat)
    : result (Vector2d * Vector2d * World) :=
  let '(noise, w') := getMeasurementNoise st w in
  lx <- at1 (prev_state st) landmark_index ;;
  ly <- at1 (prev_state st) (landmark_index + 1) ;;
  z_expected <- sensorModel st lx ly noise ;;
  z_actual <- sensorModel st (px c) (py c) Zero3v ;;
  Ok (z_expected, z_actual, w').

Definition innovation (z_actual z_expected : Vector2d) : Vector2d :=
  sub2 z_actual z_expected.

(** The body of the loop of [Slam::MeasurmentModelUpdate] for index [i]. *)
Definition update_observation (st : Slam) (w : World) (i : nat) (c : Point)
    (cur_r : R) : result (Slam * World) :=
  let landmark_index := (3 + 2 * i)%nat in
  '(z_expected, z_actual, w') <- measurements st w c landmark_index ;;
  a <- at1 (prev_state st) landmark_index ;;
  p1 <- at1 (prev_state st) 1 ;;
  let del_x := a - p1 in
  b <- at1 (prev_state st) (landmark_index + 1) ;;
  p2 <- at1 (prev_state st) 2 ;;
  let del_y := b - p2 in
  let dist := del_x * del_x + del_y * del_y in
  Hi <- getHMatrix st w' del_x del_y dist (Z.of_nat i) ;;
  Ki <- kalmanGain (sigma st) Hi (Rnoise st) ;;
  corr <- mul Ki (of_Vector2d (innovation z_actual z_expected)) ;;
  mu <- add (prev_state st) corr ;;
  I <- Identity (state_size st) (state_size st) ;;
  KH <- mul Ki Hi ;;
  IKH <- sub I KH ;;
  Sg' <- mul IKH (sigma st) ;;
  Ok (mkSlam (Qnoise st) (Rnoise st) (state_size st) mu Sg', w').

(** [Slam::MeasurmentModelUpdate]: the loop, from index [i] on. *)
Fixpoint update_from (cs : list Point) (rs : list R) (i : nat)
    (st : Slam) (w : World) : result (Slam * World) :=
  match cs with
  | [] => Ok (st, w)
  | c :: cs' =>
      cur_r <- vector_at rs i ;;
      '(st', w') <- update_observation st w i c cur_r ;;
      update_from cs' rs (S i) st' w'
  end.

Definition MeasurmentModelUpdate (st : Slam) (w : World) (map_data : TurtleMap)
    : result (Slam * World) :=
  update_from (centers map_data) (radii map_data) 0 st w.

(** ** Derived notions used in the statements *)

(** Entries of the mean and of the covariance; outside the object the value
    is irrelevant. *)
Definition mu_at (st : Slam) (i : nat) : R := coeff (prev_state st) i 0.

Definition sigma_at (st : Slam) (i j : nat) : R := coeff (sigma st) i j.

(** The objects of [st] have the sizes that go with [n] state entries. *)
Definition sized (st : Slam) (n : nat) : Prop :=
  (3 <= n)%nat /\
  state_size st = Z.of_nat n /\
  rows (prev_state st) = n /\ cols (prev_state st) = 1%nat /\
  rows (sigma st) = n /\ cols (sigma st) = n.

Definition symmetric (M : MatrixXd) : Prop :=
  rows M = cols M /\
  forall i j, (i < rows M)%nat -> (j < rows M)%nat -> coeff M i j = coeff M j i.

Definition symmetric3 (M : Matrix3d) : Prop :=
  m01 M = m10 M /\ m02 M = m20 M /\ m12 M = m21 M.

(** Positive semi-definiteness of a 3x3 matrix, as a quadratic form. *)
Definition quad3 (M : Matrix3d) (a b c : R) : R :=
  a * (m00 M * a + m01 M * b + m02 M * c) +
  b * (m10 M * a + m11 M * b + m12 M * c) +
  c * (m20 M * a + m21 M * b + m22 M * c).

Definition spsd3 (M : Matrix3d) : Prop :=
  symmetric3 M /\ forall a b c, 0 <= quad3 M a b c.

(** The top-left 2x2 block of a 3x3 matrix is symmetric positive
    semi-definite. *)
Definition spsd2_block (M : Matrix3d) : Prop :=
  m01 M = m10 M /\ forall a b, 0 <= quad3 M a b 0.

Definition in_half_open_turn (a : R) : Prop := - PI < a <= PI.


(** Closed forms of what the prediction step writes.  [Gt_coeff] is [Gt]
    after line 144, [Qbar_coeff] is [Qbar] after line 148. *)
Definition Gt_coeff (d : Vector3d) (i j : nat) : R :=
  (if ((i =? 2)%nat && (j =? 0)%nat) then v2 d
   else if ((i =? 1)%nat && (j =? 0)%nat) then v1 d
   else if ((i =? 0)%nat && (j =? 0)%nat) then v0 d
   else 0) + (if (i =? j)%nat then 1 else 0).

Definition Qbar_coeff (Q : Matrix3d) (i j : nat) : R :=
  if in_block 0 0 3 3 i j then coeff3 Q (i - 0) (j - 0) else 0.

Definition predicted_sigma (n : nat) (Sg : MatrixXd) (Q : Matrix3d) (d : Vector3d)
    : MatrixXd :=
  mkMatrix n n
    (fun i j =>
       sum_n n (fun k =>
                  sum_n n (fun l => Gt_coeff d i l * coeff Sg l k) * Gt_coeff d j k)
       + Qbar_coeff Q i j).

Definition predicted_mean (mu : MatrixXd) (u noise : Vector3d) : MatrixXd :=
  mkMatrix (rows mu) (cols mu)
    (fun a b =>
       if ((a =? 2)%nat && (b =? 0)%nat) then coeff mu 2 0 + (v2 u + v2 noise)
       else if ((a =? 1)%nat && (b =? 0)%nat) then coeff mu 1 0 + (v1 u + v1 noise)
       else if ((a =? 0)%nat && (b =? 0)%nat) then coeff mu 0 0 + (v0 u + v0 noise)
       else coeff mu a b).

Definition predicted (st : Slam) (n : nat) (u du noise : Vector3d) : Slam :=
  mkSlam (Qnoise st) (Rnoise st) (state_size st)
    (predicted_mean (prev_state st) u noise)
    (predicted_sigma n (sigma st) (Qnoise st) du).

(** The value of [vel_ratio] on the turning branch. *)
Definition vel_ratio (tw : Twist2D) : R := vx tw / wz tw.

Definition increment (tw : Twist2D) (th : R) : Vector3d :=
  if Req_dec_T (wz tw) 0 then
    mkVector3d 0 (vx tw * cos th) (vy tw * sin th)
  else
    mkVector3d (wz tw)
      (- vel_ratio tw * sin th + vel_ratio tw * sin (th + wz tw))
      (vel_ratio tw * cos th - vel_ratio tw * cos (th + wz tw)).

Definition increment_jacobian (tw : Twist2D) (th : R) : Vector3d :=
  if Req_dec_T (wz tw) 0 then
    mkVector3d 0 (- vx tw * sin th) (vx tw * cos th)
  else
    mkVector3d 0
      (- vel_ratio tw * cos th + vel_ratio tw * cos (th + wz tw))
      (- vel_ratio tw * sin th + vel_ratio tw * sin (th + wz tw)).

(** Closed form of [sensorModel] on a state whose mean has entries 0..2. *)
Definition sensor_value (st : Slam) (x y : R) (noise : Vector3d) : Vector2d :=
  let x_diff := x - mu_at st 1 in
  let y_diff := y - mu_at st 2 in
  mkVector2d (sqrt (x_diff * x_diff + y_diff * y_diff) + v0 noise)
             (normalize_angle (atan2 y_diff x_diff - mu_at st 0 + v1 noise)).

(** Squared distance between the estimate of landmark [i] and the estimated
    robot position: [dist] of line 188. *)
Definition sq_dist (st : Slam) (i : nat) : R :=
  let del_x := mu_at st (3 + 2 * i) - mu_at st 1 in
  let del_y := mu_at st (3 + 2 * i + 1) - mu_at st 2 in
  del_x * del_x + del_y * del_y.






(** ** Concrete inputs used below *)

(** A random source that always draws 0, and one that does not. *)
Definition quiet_world : World := mkWorld (fun _ => 0) 0 (fun _ _ => 0).

Definition loud_world : World := mkWorld (fun k => INR k + 1) 7 (fun _ _ => 1).

(** An estimator without landmarks at the origin, with zero noise matrices
    and zero covariance. *)
Definition origin_state : Slam :=
  mkSlam Zero3 Zero3 3 (mkMatrix 3 1 (fun _ _ => 0)) (mkMatrix 3 3 (fun _ _ => 0)).

(** An estimator with one landmark, everything zero. *)
Definition one_landmark_state : Slam :=
  mkSlam Zero3 Zero3 5 (mkMatrix 5 1 (fun _ _ => 0)) (mkMatrix 5 5 (fun _ _ => 0)).

Definition quarter_turn : Twist2D := mkTwist2D (PI / 2) 0 0.

Definition forward : Twist2D := mkTwist2D 0 1 0.

Definition spin5 : Twist2D := mkTwist2D 5 0 0.

(** A matrix that is not symmetric. *)
Definition skew_Q : Matrix3d := mkMatrix3d 0 1 0 0 0 0 0 0 0.

(** A symmetric matrix with a negative diagonal entry. *)
Definition negative_R : Matrix3d := mkMatrix3d (-1) 0 0 0 0 0 0 0 0.

Definition one_observation : TurtleMap :=
  mkTurtleMap [mkPoint 1 0 0] [1].

Definition side_observation : Point := mkPoint 1 (-1) 0.

(** A 2 x 5 Jacobian-shaped matrix and a 5 x 5 covariance. *)
Definition H_shape : MatrixXd := mkMatrix 2 5 (fun _ _ => 0).





(** ** rigid2d.hpp: the functions defined in the header *)

Module rigid2d_header.

(** [constexpr double PI=3.14159265358979323846] *)
Definition PI : R := 314159265358979323846 / 10 ^ 20.

(** [almost_equal(d1, d2, epsilon)] *)
Definition almost_equal (d1 d2 epsilon : R) : bool :=
  if Rlt_dec (Rabs (d1 - d2)) epsilon then true else false.

(** The default argument [epsilon=1.0e-12]. *)
Definition default_epsilon : R := 1 / 10 ^ 12.

Definition deg2rad (deg : R) : R := deg * (PI / 180).

Definition rad2deg (rad : R) : R := rad * (180 / PI).

End rigid2d_header.

(** ** Notions used for the further properties *)

(** Several predictions in a row, each drawing from the random source left
    by the one before. *)
Fixpoint predict_sequence (tws : list Twist2D) (st : Slam) (w : World)
    : result (Slam * World) :=
  match tws with
  | [] => Ok (st, w)
  | tw :: rest =>
      '(st', w') <- MotionModelUpdate st w tw ;;
      predict_sequence rest st' w'
  end.

(** The first column of [Gt] minus the identity: [dupdate] on rows 0..2 and
    zero below. *)
Definition jacobian_column (d : Vector3d) (i : nat) : R :=
  match i with
  | 0%nat => v0 d
  | 1%nat => v1 d
  | 2%nat => v2 d
  | _ => 0
  end.

(** The quadratic form of the leading [n] x [n] part of a matrix. *)
Definition quad_form (n : nat) (M : nat -> nat -> R) (x : nat -> R) : R :=
  sum_n n (fun i => sum_n n (fun j => x i * M i j * x j)).

Definition positive_semidefinite (M : MatrixXd) : Prop :=
  forall x, 0 <= quad_form (rows M) (coeff M) x.

Definition psd3 (Q : Matrix3d) : Prop := forall a b c, 0 <= quad3 Q a b c.

(** The vector [G^T x]: [x] with [c = sum_i x_i g_i] added to entry 0. *)
Definition pulled_back (n : nat) (d : Vector3d) (x : nat -> R) (l : nat) : R :=
  x l + (if (l =? 0)%nat then 1 else 0) * sum_n n (fun i => x i * jacobian_column d i).

(** The product [l * l^T] of a 3x3 matrix with its transpose. *)
Definition gram3 (l : Matrix3d) : Matrix3d :=
  mkMatrix3d
    (m00 l * m00 l + m01 l * m01 l + m02 l * m02 l)
    (m00 l * m10 l + m01 l * m11 l + m02 l * m12 l)
    (m00 l * m20 l + m01 l * m21 l + m02 l * m22 l)
    (m10 l * m00 l + m11 l * m01 l + m12 l * m02 l)
    (m10 l * m10 l + m11 l * m11 l + m12 l * m12 l)
    (m10 l * m20 l + m11 l * m21 l + m12 l * m22 l)
    (m20 l * m00 l + m21 l * m01 l + m22 l * m02 l)
    (m20 l * m10 l + m21 l * m11 l + m22 l * m12 l)
    (m20 l * m20 l + m21 l * m21 l + m22 l * m22 l).

(** Total of a list of rotation rates. *)
Definition total_turn (tws : list Twist2D) : R :=
  fold_right (fun tw acc => wz tw + acc) 0 tws.

(** A positive definite process noise, a diagonal one, and inputs for the
    examples. *)
Definition sample_Q : Matrix3d := mkMatrix3d 4 2 0 2 5 0 0 0 1.

Definition arc : Twist2D := mkTwist2D 1 2 0.

Definition rest_twist : Twist2D := mkTwist2D 0 0 0.

(** The landmarks are as the constructor leaves them: zero means, variance
    10000 on the diagonal, and no correlation with anything. *)
Definition landmark_prior (st : Slam) (n : nat) : Prop :=
  (forall i, (3 <= i)%nat -> mu_at st i = 0) /\
  (forall i j, (i < n)%nat -> (j < n)%nat -> (3 <= i)%nat \/ (3 <= j)%nat ->
               sigma_at st i j = if (i =? j)%nat then 10000 else 0).

(** Leading principal minors of a 3x3 matrix. *)
Definition minor2 (Q : Matrix3d) : R := m00 Q * m11 Q - m10 Q * m10 Q.

Definition det3 (Q : Matrix3d) : R :=
  m00 Q * (m11 Q * m22 Q - m21 Q * m21 Q)
  - m10 Q * (m10 Q * m22 Q - m21 Q * m20 Q)
  + m20 Q * (m10 Q * m21 Q - m11 Q * m20 Q).

(** A world with other contents in fresh storage. *)
Definition other_world : World := mkWorld (fun k => INR k) 0 (fun i j => INR (i + j) + 3).
(** ** Basic facts about the monad and the Eigen operations *)

(** Size conditions of a concrete state, by evaluation. *)
Ltac prove_sized := unfold sized; cbn; repeat split; lia.

(** Case analysis on every comparison of naturals in the goal. *)
Ltac case_nat_tests :=
  repeat match goal with
         | |- context [(?a <=? ?b)%nat] => destruct (Nat.leb_spec a b); try lia
         | |- context [(?a <? ?b)%nat] => destruct (Nat.ltb_spec a b); try lia
         | |- context [(?a =? ?b)%nat] => destruct (Nat.eqb_spec a b); try lia
         end.


Lemma require_true (e : error) : require true e = Ok tt.
Proof. reflexivity. Qed.

Lemma fdiv_ok (a b : R) : b <> 0 -> fdiv a b = Ok (a / b).
Proof.
  intros Hb. unfold fdiv. destruct (Req_dec_T b 0) as [E | _]; [contradiction | reflexivity].
Qed.

Lemma fdiv_zero (a : R) : fdiv a 0 = Err NotFinite.
Proof.
  unfold fdiv. destruct (Req_dec_T 0 0) as [_ | N]; [reflexivity | now elim N].
Qed.

Lemma Zero_ok (r c : Z) :
  (0 <= r)%Z -> (0 <= c)%Z ->
  Zero r c = Ok (mkMatrix (Z.to_nat r) (Z.to_nat c) (fun _ _ => 0)).
Proof.
  intros Hr Hc. unfold Zero.
  rewrite (proj2 (Z.leb_le 0 r) Hr), (proj2 (Z.leb_le 0 c) Hc). reflexivity.
Qed.

Lemma Identity_ok (r c : Z) :
  (0 <= r)%Z -> (0 <= c)%Z ->
  Identity r c = Ok (mkMatrix (Z.to_nat r) (Z.to_nat c)
                       (fun i j => if (i =? j)%nat then 1 else 0)).
Proof.
  intros Hr Hc. unfold Identity.
  rewrite (proj2 (Z.leb_le 0 r) Hr), (proj2 (Z.leb_le 0 c) Hc). reflexivity.
Qed.

Lemma resize_ok (f : nat -> nat -> R) (r c : Z) :
  (0 <= r)%Z -> (0 <= c)%Z ->
  resize f r c = Ok (mkMatrix (Z.to_nat r) (Z.to_nat c) f).
Proof.
  intros Hr Hc. unfold resize.
  rewrite (proj2 (Z.leb_le 0 r) Hr), (proj2 (Z.leb_le 0 c) Hc). reflexivity.
Qed.

Lemma at2_ok (M : MatrixXd) (i j : nat) :
  (i < rows M)%nat -> (j < cols M)%nat -> at2 M i j = Ok (coeff M i j).
Proof.
  intros Hi Hj. unfold at2.
  rewrite (proj2 (Nat.ltb_lt _ _) Hi), (proj2 (Nat.ltb_lt _ _) Hj). reflexivity.
Qed.

Lemma at1_ok (v : MatrixXd) (i : nat) :
  (i < rows v)%nat -> cols v = 1%nat -> at1 v i = Ok (coeff v i 0).
Proof. intros Hi Hc. apply at2_ok; [assumption | lia]. Qed.

Lemma at1_out (v : MatrixXd) (i : nat) :
  (rows v <= i)%nat -> at1 v i = Err EigenAssert.
Proof.
  intros Hi. unfold at1, at2.
  rewrite (proj2 (Nat.ltb_ge _ _) Hi). reflexivity.
Qed.

Lemma set2_ok (M : MatrixXd) (i j : nat) (x : R) :
  (i < rows M)%nat -> (j < cols M)%nat ->
  set2 M i j x =
  Ok (mkMatrix (rows M) (cols M)
        (fun a b => if ((a =? i)%nat && (b =? j)%nat) then x else coeff M a b)).
Proof.
  intros Hi Hj. unfold set2.
  rewrite (proj2 (Nat.ltb_lt _ _) Hi), (proj2 (Nat.ltb_lt _ _) Hj). reflexivity.
Qed.

Lemma set1_ok (v : MatrixXd) (i : nat) (x : R) :
  (i < rows v)%nat -> cols v = 1%nat ->
  set1 v i x =
  Ok (mkMatrix (rows v) (cols v)
        (fun a b => if ((a =? i)%nat && (b =? 0)%nat) then x else coeff v a b)).
Proof. intros Hi Hc. apply set2_ok; [assumption | lia]. Qed.

Lemma add_ok (A B : MatrixXd) :
  rows A = rows B -> cols A = cols B ->
  add A B = Ok (mkMatrix (rows A) (cols A) (fun i j => coeff A i j + coeff B i j)).
Proof.
  intros Hr Hc. unfold add, same_size.
  rewrite (proj2 (Nat.eqb_eq _ _) Hr), (proj2 (Nat.eqb_eq _ _) Hc). reflexivity.
Qed.

Lemma add_mismatch (A B : MatrixXd) :
  rows A <> rows B -> add A B = Err EigenAssert.
Proof.
  intros Hr. unfold add, same_size.
  rewrite (proj2 (Nat.eqb_neq _ _) Hr). reflexivity.
Qed.

Lemma mul_ok (A B : MatrixXd) :
  cols A = rows B ->
  mul A B = Ok (mkMatrix (rows A) (cols B)
                  (fun i j => sum_n (cols A) (fun k => coeff A i k * coeff B k j))).
Proof.
  intros Hc. unfold mul. rewrite (proj2 (Nat.eqb_eq _ _) Hc). reflexivity.
Qed.

Lemma block_ok_true (M : MatrixXd) (r0 c0 nr nc : Z) :
  (0 <= r0)%Z -> (0 <= nr)%Z -> (r0 + nr <= Z.of_nat (rows M))%Z ->
  (0 <= c0)%Z -> (0 <= nc)%Z -> (c0 + nc <= Z.of_nat (cols M))%Z ->
  block_ok M r0 c0 nr nc = true.
Proof.
  intros. unfold block_ok.
  repeat (apply andb_true_intro; split); apply Z.leb_le; lia.
Qed.

Lemma set_block_zero_ok (M : MatrixXd) (r0 c0 nr nc : Z) :
  (0 <= r0)%Z -> (0 <= nr)%Z -> (r0 + nr <= Z.of_nat (rows M))%Z ->
  (0 <= c0)%Z -> (0 <= nc)%Z -> (c0 + nc <= Z.of_nat (cols M))%Z ->
  set_block_zero M r0 c0 nr nc =
  Ok (write_block M (Z.to_nat r0) (Z.to_nat c0) (Z.to_nat nr) (Z.to_nat nc)
        (fun _ _ => 0)).
Proof.
  intros. unfold set_block_zero. rewrite block_ok_true by assumption. reflexivity.
Qed.

Lemma set_block_ok (M : MatrixXd) (r0 c0 nr nc : Z) (B : MatrixXd) :
  (0 <= r0)%Z -> (0 <= nr)%Z -> (r0 + nr <= Z.of_nat (rows M))%Z ->
  (0 <= c0)%Z -> (0 <= nc)%Z -> (c0 + nc <= Z.of_nat (cols M))%Z ->
  Z.to_nat nr = rows B -> Z.to_nat nc = cols B ->
  set_block M r0 c0 nr nc B =
  Ok (write_block M (Z.to_nat r0) (Z.to_nat c0) (Z.to_nat nr) (Z.to_nat nc)
        (coeff B)).
Proof.
  intros ? ? ? ? ? ? Hr Hc. unfold set_block. rewrite block_ok_true by assumption.
  rewrite (proj2 (Nat.eqb_eq _ _) Hr), (proj2 (Nat.eqb_eq _ _) Hc). reflexivity.
Qed.

(** ** The prediction step on a well-sized state *)

Lemma motion_increment_total (tw : Twist2D) (th : R) :
  motion_increment tw th = Ok (increment tw th, increment_jacobian tw th).
Proof.
  unfold motion_increment, increment, increment_jacobian, vel_ratio.
  destruct (Req_dec_T (wz tw) 0) as [E | N]; [reflexivity |].
  rewrite fdiv_ok by assumption. reflexivity.
Qed.

Lemma increment_translation (tw : Twist2D) (th : R) :
  wz tw = 0 ->
  increment tw th = mkVector3d 0 (vx tw * cos th) (vy tw * sin th).
Proof.
  intros E. unfold increment.
  destruct (Req_dec_T (wz tw) 0) as [_ | N]; [reflexivity | contradiction].
Qed.

Lemma increment_turning (tw : Twist2D) (th : R) :
  wz tw <> 0 ->
  increment tw th =
  mkVector3d (wz tw)
    (- vel_ratio tw * sin th + vel_ratio tw * sin (th + wz tw))
    (vel_ratio tw * cos th - vel_ratio tw * cos (th + wz tw)) /\
  increment_jacobian tw th =
  mkVector3d 0
    (- vel_ratio tw * cos th + vel_ratio tw * cos (th + wz tw))
    (- vel_ratio tw * sin th + vel_ratio tw * sin (th + wz tw)).
Proof.
  intros N. unfold increment, increment_jacobian.
  destruct (Req_dec_T (wz tw) 0) as [E | _]; [contradiction | split; reflexivity].
Qed.

Lemma increment_heading (tw : Twist2D) (th : R) : v0 (increment tw th) = wz tw.
Proof.
  unfold increment.
  destruct (Req_dec_T (wz tw) 0) as [E | N]; cbn [v0]; [now rewrite E | reflexivity].
Qed.

Lemma updateCovarPrediction_sized (st : Slam) (n : nat) (d : Vector3d) :
  sized st n ->
  updateCovarPrediction st d =
  Ok (with_sigma st (predicted_sigma n (sigma st) (Qnoise st) d)).
Proof.
  intros (Hn & Hs & Hr & Hc & Hsr & Hsc).
  unfold updateCovarPrediction. rewrite Hs.
  rewrite Zero_ok by lia. cbn [bind]. rewrite Nat2Z.id.
  do 3 (rewrite set2_ok by (cbn [rows cols]; lia); cbn [bind rows cols coeff]).
  rewrite Identity_ok by lia. cbn [bind]. rewrite Nat2Z.id.
  rewrite add_ok by reflexivity. cbn [bind rows cols coeff].
  rewrite set_block_ok by (cbn [rows cols of_Matrix3d]; lia). cbn [bind].
  rewrite mul_ok by (cbn [rows cols]; lia). cbn [bind rows cols coeff].
  rewrite mul_ok by (cbn [rows cols transpose]; lia).
  cbn [bind rows cols coeff transpose].
  rewrite add_ok by (cbn [rows cols write_block]; lia).
  cbn [bind rows cols coeff write_block]. rewrite Hsc. reflexivity.
Qed.

Lemma predict_with_noise_sized (st : Slam) (n : nat) (noise : Vector3d)
    (tw : Twist2D) :
  sized st n ->
  predict_with_noise st noise tw =
  Ok (predicted st n (increment tw (mu_at st 0))
        (increment_jacobian tw (mu_at st 0)) noise).
Proof.
  intros Hsz. pose proof Hsz as (Hn & Hs & Hr & Hc & Hsr & Hsc).
  unfold predict_with_noise.
  rewrite at1_ok by lia. cbn [bind].
  rewrite motion_increment_total. cbn [bind].
  rewrite set1_ok by lia. cbn [bind].
  rewrite at1_ok by (cbn [rows cols]; lia). cbn [bind coeff].
  rewrite set1_ok by (cbn [rows cols]; lia). cbn [bind].
  rewrite at1_ok by (cbn [rows cols]; lia). cbn [bind coeff].
  rewrite set1_ok by (cbn [rows cols]; lia). cbn [bind rows cols coeff].
  rewrite (updateCovarPrediction_sized _ n).
  - reflexivity.
  - unfold sized, with_prev_state. cbn [state_size prev_state sigma rows cols].
    repeat split; assumption.
Qed.

Lemma predicted_sized (st : Slam) (n : nat) (u du noise : Vector3d) :
  sized st n -> sized (predicted st n u du noise) n.
Proof.
  intros (Hn & Hs & Hr & Hc & Hsr & Hsc).
  unfold sized, predicted, predicted_mean, predicted_sigma.
  cbn [state_size prev_state sigma rows cols]. repeat split; assumption.
Qed.

Lemma MotionModelUpdate_sized (st : Slam) (n : nat) (w : World) (tw : Twist2D) :
  sized st n ->
  MotionModelUpdate st w tw =
  Ok (predicted st n (increment tw (mu_at st 0))
        (increment_jacobian tw (mu_at st 0)) (fst (getStateNoise st w)),
      snd (getStateNoise st w)).
Proof.
  intros Hsz. unfold MotionModelUpdate.
  destruct (getStateNoise st w) as [noise w'] eqn:E. cbn [fst snd].
  rewrite (predict_with_noise_sized st n noise tw Hsz). reflexivity.
Qed.

Lemma predicted_mu0 (st : Slam) (n : nat) (u du noise : Vector3d) :
  mu_at (predicted st n u du noise) 0 = mu_at st 0 + (v0 u + v0 noise).
Proof. reflexivity. Qed.

Lemma predicted_mu1 (st : Slam) (n : nat) (u du noise : Vector3d) :
  mu_at (predicted st n u du noise) 1 = mu_at st 1 + (v1 u + v1 noise).
Proof. reflexivity. Qed.

Lemma predicted_mu2 (st : Slam) (n : nat) (u du noise : Vector3d) :
  mu_at (predicted st n u du noise) 2 = mu_at st 2 + (v2 u + v2 noise).
Proof. reflexivity. Qed.

Lemma predicted_landmarks (st : Slam) (n : nat) (u du noise : Vector3d) (i : nat) :
  (3 <= i)%nat -> mu_at (predicted st n u du noise) i = mu_at st i.
Proof.
  intros Hi. unfold mu_at, predicted, predicted_mean. cbn [prev_state coeff].
  destruct i as [| [| [| i]]]; try lia. reflexivity.
Qed.

(** ** The constructor *)

Lemma int_ok_true (z : Z) : (- 2 ^ 31 <= z < 2 ^ 31)%Z -> int_ok z = true.
Proof.
  intros [Hlo Hhi]. unfold int_ok.
  apply andb_true_intro; split; [apply Z.leb_le | apply Z.ltb_lt]; assumption.
Qed.

Lemma Slam_new_spec (w : World) (L : Z) (Q Rn : Matrix3d) :
  (0 <= L)%Z -> (3 + 2 * L < 2 ^ 31)%Z ->
  exists st,
    Slam_new w L Q Rn = Ok st /\
    sized st (Z.to_nat (3 + 2 * L)) /\
    Qnoise st = Q /\ Rnoise st = Rn /\
    (forall i, mu_at st i = 0) /\
    (forall i j, (i < Z.to_nat (3 + 2 * L))%nat -> (j < Z.to_nat (3 + 2 * L))%nat ->
                 sigma_at st i j = if ((3 <=? i)%nat && (i =? j)%nat) then 10000 else 0).
Proof.
  intros HL Hmax. unfold Slam_new.
  rewrite !int_ok_true by lia. cbn [andb require bind].
  rewrite !resize_ok by lia. cbn [bind rows cols].
  rewrite set_block_zero_ok by (cbn [rows cols]; lia). cbn [bind].
  rewrite set_block_zero_ok by (cbn [rows cols write_block]; lia). cbn [bind].
  rewrite set_block_zero_ok by (cbn [rows cols write_block]; lia). cbn [bind].
  rewrite Identity_ok by lia. cbn [bind].
  rewrite set_block_ok by (cbn [rows cols write_block scale]; lia). cbn [bind].
  eexists. split; [reflexivity |].
  cbn [rows cols write_block].
  split; [| split; [reflexivity | split; [reflexivity | split; [reflexivity |]]]].
  - unfold sized. cbn [state_size prev_state sigma rows cols].
    repeat split; lia.
  - intros i j Hi Hj. unfold sigma_at. cbn [sigma coeff scale].
    replace (Z.to_nat (Z.of_nat (Z.to_nat (3 + 2 * L)) - 2 * L)) with 3%nat by lia.
    replace (Z.to_nat 0) with 0%nat by reflexivity.
    replace (Z.to_nat 3) with 3%nat by reflexivity.
    unfold write_block, in_block. cbn [coeff].
    case_nat_tests; cbn [andb]; try lia; lra.
Qed.

Lemma Slam_new_negative (w : World) (L : Z) (Q Rn : Matrix3d) :
  (L < 0)%Z -> exists e, Slam_new w L Q Rn = Err e.
Proof.
  intros HL. unfold Slam_new.
  destruct (int_ok (2 * L) && int_ok (3 + 2 * L)) eqn:Hint; cbn [require bind];
    [| eexists; reflexivity].
  destruct (Z_lt_le_dec (3 + 2 * L) 0) as [Hneg | Hpos].
  - unfold resize at 1.
    rewrite (proj2 (Z.leb_gt 0 (3 + 2 * L)) Hneg). cbn [andb require bind].
    eexists; reflexivity.
  - rewrite !resize_ok by lia. cbn [bind rows cols].
    unfold set_block_zero at 1, block_ok. cbn [rows cols].
    assert (H3 : (0 <=? Z.of_nat (Z.to_nat (3 + 2 * L)) - 3)%Z = false)
      by (apply Z.leb_gt; lia).
    rewrite H3. cbn. eexists; reflexivity.
Qed.

(** ** Cholesky factor and noise for a zero covariance *)

Lemma llt_matrixL_Zero3 : llt_matrixL Zero3 = Zero3.
Proof.
  unfold llt_matrixL, llt_inplace, Zero3. cbn [m00].
  destruct (Rle_dec 0 0) as [_ | N]; [reflexivity | exfalso; apply N; lra].
Qed.

Lemma getStateNoise_drawn (st : Slam) (w : World) :
  snd (getStateNoise st w) =
  mkWorld (normal_draws w) (S (S (S (drawn w)))) (fresh w).
Proof. reflexivity. Qed.

Lemma getStateNoise_zero_Q (st : Slam) (w : World) :
  Qnoise st = Zero3 -> fst (getStateNoise st w) = Zero3v.
Proof.
  intros HQ. unfold getStateNoise. rewrite HQ, llt_matrixL_Zero3.
  cbn. unfold Zero3v. f_equal; ring.
Qed.

(** ** Finite sums *)

Lemma sum_n_ext (n : nat) (f g : nat -> R) :
  (forall k, (k < n)%nat -> f k = g k) -> sum_n n f = sum_n n g.
Proof.
  induction n as [| n IH]; intros H; cbn [sum_n]; [reflexivity |].
  rewrite IH by (intros k Hk; apply H; lia).
  rewrite (H n) by lia. reflexivity.
Qed.

Lemma sum_n_plus (n : nat) (f g : nat -> R) :
  sum_n n (fun k => f k + g k) = sum_n n f + sum_n n g.
Proof.
  induction n as [| n IH]; cbn [sum_n]; [ring | rewrite IH; ring].
Qed.

Lemma sum_n_mult_r (n : nat) (f : nat -> R) (c : R) :
  sum_n n f * c = sum_n n (fun k => f k * c).
Proof.
  induction n as [| n IH]; cbn [sum_n]; [ring | rewrite <- IH; ring].
Qed.

Lemma sum_n_zero (n : nat) : sum_n n (fun _ => 0) = 0.
Proof.
  induction n as [| n IH]; cbn [sum_n]; [reflexivity | rewrite IH; ring].
Qed.

Lemma sum_n_swap (n m : nat) (f : nat -> nat -> R) :
  sum_n n (fun i => sum_n m (fun j => f i j)) =
  sum_n m (fun j => sum_n n (fun i => f i j)).
Proof.
  induction n as [| n IH]; cbn [sum_n].
  - symmetry. apply sum_n_zero.
  - rewrite IH, <- sum_n_plus. reflexivity.
Qed.

(** ** Symmetry of [G * Sg * G^T + Qbar] *)

Lemma congruence_symmetric (n : nat) (G Sg : nat -> nat -> R) (i j : nat) :
  (forall a b, (a < n)%nat -> (b < n)%nat -> Sg a b = Sg b a) ->
  sum_n n (fun k => sum_n n (fun l => G i l * Sg l k) * G j k) =
  sum_n n (fun k => sum_n n (fun l => G j l * Sg l k) * G i k).
Proof.
  intros HSg.
  rewrite (sum_n_ext n (fun k => sum_n n (fun l => G i l * Sg l k) * G j k)
             (fun k => sum_n n (fun l => G i l * Sg l k * G j k)))
    by (intros; apply sum_n_mult_r).
  rewrite (sum_n_ext n (fun k => sum_n n (fun l => G j l * Sg l k) * G i k)
             (fun k => sum_n n (fun l => G j l * Sg l k * G i k)))
    by (intros; apply sum_n_mult_r).
  rewrite (sum_n_swap n n (fun k l => G j l * Sg l k * G i k)).
  apply sum_n_ext; intros a Ha. apply sum_n_ext; intros b Hb.
  rewrite (HSg b a) by assumption. ring.
Qed.

Lemma Qbar_coeff_symmetric (Q : Matrix3d) (i j : nat) :
  symmetric3 Q -> Qbar_coeff Q i j = Qbar_coeff Q j i.
Proof.
  intros (H01 & H02 & H12). unfold Qbar_coeff, in_block.
  destruct i as [| [| [| i]]]; destruct j as [| [| [| j]]]; cbn;
    try reflexivity; try assumption; symmetry; assumption.
Qed.

Lemma predicted_sigma_symmetric (n : nat) (Sg : MatrixXd) (Q : Matrix3d)
    (d : Vector3d) :
  rows Sg = n -> symmetric Sg -> symmetric3 Q ->
  symmetric (predicted_sigma n Sg Q d).
Proof.
  intros Hn [_ HSg] HQ. split; [reflexivity |].
  cbn [predicted_sigma rows coeff]. intros i j Hi Hj.
  rewrite (Qbar_coeff_symmetric Q i j HQ). f_equal.
  apply congruence_symmetric. intros a b Ha Hb. apply HSg; lia.
Qed.

(** ** Angles *)

Lemma ceilZ_bounds (t : R) : t <= IZR (ceilZ t) < t + 1.
Proof.
  unfold ceilZ. rewrite minus_IZR.
  destruct (archimed (- t)) as [Hgt Hle]. simpl (IZR 1). lra.
Qed.

Lemma ceilZ_unique (t : R) (z : Z) : t <= IZR z < t + 1 -> ceilZ t = z.
Proof.
  intros [Hlo Hhi]. unfold ceilZ.
  assert (E : (1 - z)%Z = up (- t)).
  { apply tech_up; rewrite minus_IZR; simpl (IZR 1); lra. }
  rewrite <- E. lia.
Qed.

Lemma normalize_angle_range (a : R) : in_half_open_turn (normalize_angle a).
Proof.
  unfold in_half_open_turn, normalize_angle.
  pose proof PI_RGT_0 as Hpi.
  destruct (ceilZ_bounds ((a - PI) / (2 * PI))) as [Hlo Hhi].
  set (k := IZR (ceilZ ((a - PI) / (2 * PI)))) in *.
  assert (E : a - PI = (a - PI) / (2 * PI) * (2 * PI)) by (field; lra).
  split; nra.
Qed.

Lemma normalize_angle_id (a : R) : in_half_open_turn a -> normalize_angle a = a.
Proof.
  intros [Hlo Hhi]. unfold normalize_angle.
  pose proof PI_RGT_0 as Hpi.
  rewrite (ceilZ_unique ((a - PI) / (2 * PI)) 0).
  - simpl (IZR 0). ring.
  - simpl (IZR 0).
    assert (E : (a - PI) / (2 * PI) = (a - PI) * / (2 * PI)) by reflexivity.
    assert (Hinv : 0 < / (2 * PI)) by (apply Rinv_0_lt_compat; lra).
    assert (Hone : 2 * PI * / (2 * PI) = 1) by (field; lra).
    split; nra.
Qed.

Lemma normalize_angle_idempotent (a : R) :
  normalize_angle (normalize_angle a) = normalize_angle a.
Proof. apply normalize_angle_id, normalize_angle_range. Qed.

Lemma normalize_angle_turns (a : R) (k : Z) :
  in_half_open_turn (a - 2 * PI * IZR k) ->
  normalize_angle a = a - 2 * PI * IZR k.
Proof.
  intros [Hlo Hhi]. unfold normalize_angle.
  pose proof PI_RGT_0 as Hpi.
  rewrite (ceilZ_unique ((a - PI) / (2 * PI)) k); [reflexivity |].
  assert (E : (a - PI) / (2 * PI) * (2 * PI) = a - PI) by (field; lra).
  split; nra.
Qed.

(** The boundary cases listed in the spec. *)
Lemma normalize_angle_boundary :
  normalize_angle PI = PI /\
  normalize_angle (- PI) = PI /\
  normalize_angle (3 * PI) = PI /\
  normalize_angle (- (3 * PI) / 2) = PI / 2.
Proof.
  pose proof PI_RGT_0 as Hpi.
  split; [apply normalize_angle_id; unfold in_half_open_turn; lra |].
  split; [rewrite (normalize_angle_turns (- PI) (-1));
          [simpl (IZR (-1)); lra | unfold in_half_open_turn; simpl (IZR (-1)); lra] |].
  split; [rewrite (normalize_angle_turns (3 * PI) 1);
          [simpl (IZR 1); lra | unfold in_half_open_turn; simpl (IZR 1); lra] |].
  rewrite (normalize_angle_turns (- (3 * PI) / 2) (-1));
    [simpl (IZR (-1)); lra | unfold in_half_open_turn; simpl (IZR (-1)); lra].
Qed.



(** ** The measurement update *)

Lemma sensorModel_sized (st : Slam) (n : nat) (x y : R) (noise : Vector3d) :
  sized st n -> sensorModel st x y noise = Ok (sensor_value st x y noise).
Proof.
  intros (Hn & Hs & Hr & Hc & Hsr & Hsc). unfold sensorModel.
  rewrite !at1_ok by lia. reflexivity.
Qed.

Lemma measurements_sized (st : Slam) (n : nat) (w : World) (c : Point) (i : nat) :
  sized st n -> (3 + 2 * i + 1 < n)%nat ->
  measurements st w c (3 + 2 * i) =
  Ok (sensor_value st (mu_at st (3 + 2 * i)) (mu_at st (3 + 2 * i + 1))
        (fst (getMeasurementNoise st w)),
      sensor_value st (px c) (py c) Zero3v,
      snd (getMeasurementNoise st w)).
Proof.
  intros Hsz Hi. pose proof Hsz as (Hn & Hs & Hr & Hc & Hsr & Hsc).
  unfold measurements.
  destruct (getMeasurementNoise st w) as [noise w'] eqn:E. cbn [fst snd].
  rewrite !at1_ok by lia. cbn [bind].
  rewrite !(sensorModel_sized st n) by assumption. reflexivity.
Qed.

Lemma getHMatrix_pt1_ok (x y d : R) :
  d <> 0 -> sqrt d <> 0 ->
  getHMatrix_pt1 x y d =
  Ok (mkMatrix 2 3
        (fun i j => match i, j with
                    | 0%nat, 0%nat => 0
                    | 0%nat, 1%nat => - x / sqrt d
                    | 0%nat, 2%nat => - y / sqrt d
                    | 1%nat, 0%nat => -1
                    | 1%nat, 1%nat => y / d
                    | 1%nat, 2%nat => x / d
                    | _, _ => 0
                    end)).
Proof.
  intros Hd Hs. unfold getHMatrix_pt1. rewrite !fdiv_ok by assumption. reflexivity.
Qed.

Lemma getHMatrix_pt3_ok (x y d : R) :
  d <> 0 -> sqrt d <> 0 ->
  getHMatrix_pt3 x y d =
  Ok (mkMatrix 2 2
        (fun i j => match i, j with
                    | 0%nat, 0%nat => x / sqrt d
                    | 0%nat, 1%nat => y / sqrt d
                    | 1%nat, 0%nat => - y / d
                    | 1%nat, 1%nat => x / d
                    | _, _ => 0
                    end)).
Proof.
  intros Hd Hs. unfold getHMatrix_pt3. rewrite !fdiv_ok by assumption. reflexivity.
Qed.

Lemma getHMatrix_pt1_degenerate (x y : R) : getHMatrix_pt1 x y 0 = Err NotFinite.
Proof. unfold getHMatrix_pt1. rewrite sqrt_0, fdiv_zero. reflexivity. Qed.

Lemma getHMatrix_degenerate (st : Slam) (w : World) (x y : R) (id : Z) :
  (0 <= state_size st)%Z -> getHMatrix st w x y 0 id = Err NotFinite.
Proof.
  intros Hs. unfold getHMatrix. rewrite resize_ok by lia. cbn [bind].
  rewrite getHMatrix_pt1_degenerate. reflexivity.
Qed.

Lemma Zero_negative_cols (r c : Z) : (c < 0)%Z -> Zero r c = Err EigenAssert.
Proof.
  intros Hc. unfold Zero. rewrite (proj2 (Z.leb_gt 0 c) Hc).
  rewrite andb_false_r. reflexivity.
Qed.

(** The four blocks handed to the comma initialiser have [state_size + 2]
    columns in all, two more than [Hi] has: the assembly never succeeds. *)
Lemma getHMatrix_too_many_columns (st : Slam) (n : nat) (w : World)
    (x y d : R) (id : Z) :
  sized st n -> d <> 0 -> sqrt d <> 0 ->
  getHMatrix st w x y d id = Err EigenAssert.
Proof.
  intros (Hn & Hs & _) Hd Hsq. unfold getHMatrix. rewrite Hs.
  rewrite resize_ok by lia. cbn [bind].
  rewrite getHMatrix_pt1_ok, getHMatrix_pt3_ok by assumption. cbn [bind].
  destruct (Z_lt_le_dec (2 * id) 0) as [Hid | Hid];
    [rewrite Zero_negative_cols by assumption; reflexivity |].
  rewrite Zero_ok by lia. cbn [bind].
  destruct (Z_lt_le_dec (Z.of_nat n - 3 - 2 * id) 0) as [Hrest | Hrest];
    [rewrite Zero_negative_cols by assumption; reflexivity |].
  rewrite Zero_ok by lia. cbn [bind].
  change (Z.to_nat 2) with 2%nat. rewrite Nat2Z.id.
  set (a := Z.to_nat (2 * id)). set (b := Z.to_nat (Z.of_nat n - 3 - 2 * id)).
  assert (Hab : (3 + a + b = n)%nat) by lia.
  unfold comma_init, comma_first. cbn [rows cols].
  replace (3 <=? n)%nat with true by (symmetry; apply Nat.leb_le; lia).
  cbn [Nat.leb andb require bind comma_rest].
  unfold comma_next, comma_finished, write_block;
    cbn [xpr m_row m_col m_currentBlockRows rows cols].
  repeat (case_nat_tests; cbn [negb andb orb require bind
                                 xpr m_row m_col m_currentBlockRows rows cols];
          try lia; try reflexivity).
Qed.

Lemma kalmanGain_size_mismatch (Sg Hi : MatrixXd) (Rn : Matrix3d) :
  rows Hi <> 3%nat -> kalmanGain Sg Hi Rn = Err EigenAssert.
Proof.
  intros H2. unfold kalmanGain.
  unfold mul at 1. destruct (cols Sg =? rows (transpose Hi))%nat;
    cbn [require bind]; [| reflexivity].
  unfold mul at 1. destruct (cols Hi =? rows Sg)%nat;
    cbn [require bind]; [| reflexivity].
  unfold mul at 1. cbn [rows cols transpose].
  destruct (cols Sg =? cols Hi)%nat; cbn [require bind]; [| reflexivity].
  rewrite add_mismatch by (cbn [rows of_Matrix3d]; assumption). reflexivity.
Qed.

Lemma update_observation_degenerate (st : Slam) (n : nat) (w : World) (i : nat)
    (c : Point) (r : R) :
  sized st n -> (3 + 2 * i + 1 < n)%nat -> sq_dist st i = 0 ->
  update_observation st w i c r = Err NotFinite.
Proof.
  intros Hsz Hi Hd. pose proof Hsz as (Hn & Hs & Hr & Hc & Hsr & Hsc).
  unfold update_observation.
  rewrite (measurements_sized st n) by assumption. cbn [bind].
  rewrite !at1_ok by lia. cbn [bind].
  unfold sq_dist, mu_at in Hd. cbn zeta in Hd. rewrite Hd.
  rewrite getHMatrix_degenerate by lia. reflexivity.
Qed.

Lemma vector_at_ok {A : Type} (v : list A) (i : nat) :
  (i < length v)%nat -> exists a, vector_at v i = Ok a.
Proof.
  intros Hi. unfold vector_at.
  destruct (nth_error v i) as [a |] eqn:E; [eexists; reflexivity |].
  apply nth_error_None in E. lia.
Qed.

Lemma vector_at_out {A : Type} (v : list A) (i : nat) :
  (length v <= i)%nat -> vector_at v i = Err OutOfRange.
Proof.
  intros Hi. unfold vector_at.
  rewrite (proj2 (nth_error_None v i) Hi). reflexivity.
Qed.

(** [cur_r] is assigned in line 172 and not used afterwards. *)
Lemma update_observation_ignores_radius (st : Slam) (w : World) (i : nat)
    (c : Point) (r r' : R) :
  update_observation st w i c r = update_observation st w i c r'.
Proof. reflexivity. Qed.

Lemma update_from_radii (cs : list Point) (r1 r2 : list R) :
  length r1 = length r2 ->
  forall i st w, update_from cs r1 i st w = update_from cs r2 i st w.
Proof.
  intros Hlen. induction cs as [| c cs IH]; intros i st w; cbn [update_from].
  - reflexivity.
  - destruct (Nat.lt_ge_cases i (length r1)) as [Hin | Hout].
    + destruct (vector_at_ok r1 i Hin) as [a1 E1].
      destruct (vector_at_ok r2 i) as [a2 E2]; [lia |].
      rewrite E1, E2. cbn [bind].
      rewrite (update_observation_ignores_radius st w i c a2 a1).
      destruct (update_observation st w i c a1) as [[st' w'] | e]; cbn [bind];
        [apply IH | reflexivity].
    + rewrite !vector_at_out by lia. reflexivity.
Qed.

Lemma sq_dist_pos (st : Slam) (i : nat) :
  sq_dist st i <> 0 -> sqrt (sq_dist st i) <> 0.
Proof.
  intros Hd Hs. apply Hd. apply sqrt_eq_0; [| assumption].
  unfold sq_dist. cbv zeta.
  assert (Hsq : forall a b : R, 0 <= a * a + b * b) by (intros; nra).
  apply Hsq.
Qed.

(** With the code as it stands no loop iteration completes: the landmark
    index is out of range, or d = 0 and the Jacobian is not finite, or the
    Jacobian does not fit into [Hi]. *)
Lemma update_observation_never_completes (st : Slam) (n : nat) (w : World)
    (i : nat) (c : Point) (r : R) :
  sized st n -> exists e, update_observation st w i c r = Err e.
Proof.
  intros Hsz. pose proof Hsz as (Hn & Hs & Hr & Hc & Hsr & Hsc).
  destruct (Nat.lt_ge_cases (3 + 2 * i + 1) n) as [Hin | Hout].
  - destruct (Req_dec_T (sq_dist st i) 0) as [Hd | Hd].
    + exists NotFinite. apply (update_observation_degenerate st n); assumption.
    + exists EigenAssert. unfold update_observation.
      rewrite (measurements_sized st n) by assumption. cbn [bind].
      rewrite !at1_ok by lia. cbn [bind].
      rewrite (getHMatrix_too_many_columns st n);
        [reflexivity | assumption | exact Hd | exact (sq_dist_pos st i Hd)].
  - exists EigenAssert. unfold update_observation, measurements.
    destruct (getMeasurementNoise st w) as [noise w'].
    destruct (Nat.lt_ge_cases (3 + 2 * i) n) as [Hin | Hout'].
    + rewrite (at1_ok _ (3 + 2 * i)) by lia. cbn [bind].
      rewrite at1_out by lia. reflexivity.
    + rewrite at1_out by lia. reflexivity.
Qed.

(** * Properties of the estimator *)

(** ** C1: pose block of the observation Jacobian *)

(** What the code writes into the 2x3 pose block [pt1]: row 0 is
    [0, -x/sqrt d, -y/sqrt d] and row 1 is [-1, y/d, x/d]. *)
Lemma getHMatrix_pt1_entries (x y d : R) :
  d <> 0 -> sqrt d <> 0 ->
  exists M, getHMatrix_pt1 x y d = Ok M /\
    rows M = 2%nat /\ cols M = 3%nat /\
    coeff M 0 0 = 0 /\ coeff M 0 1 = - x / sqrt d /\ coeff M 0 2 = - y / sqrt d /\
    coeff M 1 0 = -1 /\ coeff M 1 1 = y / d /\ coeff M 1 2 = x / d.
Proof.
  intros Hd Hs. eexists. split; [apply getHMatrix_pt1_ok; assumption |].
  cbn. repeat split; reflexivity.
Qed.

(** C1 (code defect).  At dx = 1, dy = 0, d = 1 the last entry of row 1 of
    the pose block is dx/d = 1, whereas the specified Jacobian has -dx/d = -1
    there; the other five entries are as specified. *)
Theorem C1_pose_block_last_entry_sign :
  exists M, getHMatrix_pt1 1 0 1 = Ok M /\
    coeff M 0 0 = 0 /\ coeff M 0 1 = - 1 / sqrt 1 /\ coeff M 0 2 = - 0 / sqrt 1 /\
    coeff M 1 0 = -1 /\ coeff M 1 1 = 0 / 1 /\
    coeff M 1 2 = 1 /\ coeff M 1 2 <> - 1 / 1.
Proof.
  destruct (getHMatrix_pt1_entries 1 0 1) as (M & HM & _ & _ & H00 & H01 & H02 & H10 & H11 & H12).
  - lra.
  - rewrite sqrt_1. lra.
  - exists M. split; [exact HM |].
    rewrite H00, H01, H02, H10, H11, H12.
    repeat split; try reflexivity; lra.
Qed.

(** ** C2: pose increment of a pure translation *)

(** What the code does for omega = 0: the y increment is vy * sin(theta). *)
Lemma predict_translation (st : Slam) (n : nat) (w : World) (tw : Twist2D) :
  sized st n -> wz tw = 0 ->
  exists st' w', MotionModelUpdate st w tw = Ok (st', w') /\
    sized st' n /\ Qnoise st' = Qnoise st /\
    mu_at st' 0 = mu_at st 0 + (0 + v0 (fst (getStateNoise st w))) /\
    mu_at st' 1 = mu_at st 1 + (vx tw * cos (mu_at st 0) + v1 (fst (getStateNoise st w))) /\
    mu_at st' 2 = mu_at st 2 + (vy tw * sin (mu_at st 0) + v2 (fst (getStateNoise st w))).
Proof.
  intros Hsz Hw. eexists. eexists.
  split; [apply (MotionModelUpdate_sized st n w tw Hsz) |].
  split; [apply predicted_sized; assumption |].
  split; [reflexivity |].
  rewrite predicted_mu0, predicted_mu1, predicted_mu2.
  rewrite (increment_translation tw _ Hw). cbn [v0 v1 v2].
  repeat split; reflexivity.
Qed.

Lemma predict_heading (st : Slam) (n : nat) (w : World) (tw : Twist2D) :
  sized st n ->
  exists st' w', MotionModelUpdate st w tw = Ok (st', w') /\
    sized st' n /\ Qnoise st' = Qnoise st /\
    (forall i, (3 <= i)%nat -> mu_at st' i = mu_at st i) /\
    mu_at st' 0 = mu_at st 0 + (wz tw + v0 (fst (getStateNoise st w))).
Proof.
  intros Hsz. eexists. eexists.
  split; [apply (MotionModelUpdate_sized st n w tw Hsz) |].
  split; [apply predicted_sized; assumption |].
  split; [reflexivity |].
  split; [intros i Hi; apply predicted_landmarks; assumption |].
  rewrite predicted_mu0, increment_heading. reflexivity.
Qed.

(** C2 (code defect).  Build an estimator with Q = 0, turn it by pi/2 and
    then command the pure translation (omega, vx, vy) = (0, 1, 0): the
    heading is pi/2, the code adds vy * sin(theta) = 0 to y, whereas the
    specified increment is vx * sin(theta) = 1. *)
Theorem C2_translation_dy_uses_vy (w : World) :
  exists st0 st1 w1 st2 w2,
    Slam_new w 0 Zero3 Zero3 = Ok st0 /\
    MotionModelUpdate st0 w quarter_turn = Ok (st1, w1) /\
    MotionModelUpdate st1 w1 forward = Ok (st2, w2) /\
    mu_at st1 0 = PI / 2 /\
    mu_at st2 2 = mu_at st1 2 + 0 /\
    vx forward * sin (mu_at st1 0) = 1.
Proof.
  destruct (Slam_new_spec w 0 Zero3 Zero3) as (st0 & H0 & Hsz0 & HQ0 & _ & Hmu0 & _);
    [lia | lia |].
  change (Z.to_nat (3 + 2 * 0)) with 3%nat in Hsz0.
  destruct (predict_heading st0 3 w quarter_turn Hsz0)
    as (st1 & w1 & H1 & Hsz1 & HQ1 & _ & Hth1).
  destruct (predict_translation st1 3 w1 forward Hsz1 eq_refl)
    as (st2 & w2 & H2 & _ & _ & _ & _ & Hy2).
  assert (HQ : Qnoise st1 = Zero3) by (rewrite HQ1; exact HQ0).
  assert (Hth : mu_at st1 0 = PI / 2).
  { rewrite Hth1, Hmu0, (getStateNoise_zero_Q st0 w HQ0). cbn. lra. }
  exists st0, st1, w1, st2, w2.
  repeat split; try assumption.
  - rewrite Hy2, (getStateNoise_zero_Q st1 w1 HQ). cbn. f_equal. lra.
  - rewrite Hth, sin_PI2. cbn. lra.
Qed.

(** ** C3: Kalman gain *)

(** C3 (code defect).  [Rnoise] is the 3x3 matrix handed to the constructor;
    line 193 adds all of it to Hi * sigma * Hi^T.  For an n x n covariance
    and a 2 x n Jacobian the two products are well formed and
    Hi * sigma * Hi^T is 2x2, but the sum with the 3x3 [Rnoise] is rejected
    by Eigen, so no gain is formed. *)
Theorem C3_gain_adds_full_Rnoise (Sg Hi : MatrixXd) (Rn : Matrix3d) (n : nat) :
  rows Sg = n -> cols Sg = n -> rows Hi = 2%nat -> cols Hi = n ->
  exists SHt HSHt,
    mul Sg (transpose Hi) = Ok SHt /\
    (HS <- mul Hi Sg ;; mul HS (transpose Hi)) = Ok HSHt /\
    rows HSHt = 2%nat /\ cols HSHt = 2%nat /\
    rows (of_Matrix3d Rn) = 3%nat /\ cols (of_Matrix3d Rn) = 3%nat /\
    add HSHt (of_Matrix3d Rn) = Err EigenAssert /\
    kalmanGain Sg Hi Rn = Err EigenAssert.
Proof.
  intros Hr Hc H2 Hn. eexists _, _.
  split; [apply mul_ok; cbn [rows transpose]; congruence |].
  split.
  { rewrite mul_ok by congruence. cbn [bind].
    apply mul_ok. cbn [rows cols transpose]. congruence. }
  cbn [rows cols transpose of_Matrix3d].
  split; [exact H2 | split; [exact H2 |]].
  split; [reflexivity | split; [reflexivity |]].
  split.
  - apply add_mismatch. cbn [rows cols transpose of_Matrix3d]. lia.
  - apply kalmanGain_size_mismatch. lia.
Qed.

Lemma C3_gain_adds_full_Rnoise_witness :
  rows (sigma one_landmark_state) = 5%nat /\ cols (sigma one_landmark_state) = 5%nat /\
  rows H_shape = 2%nat /\ cols H_shape = 5%nat /\
  exists SHt HSHt,
    mul (sigma one_landmark_state) (transpose H_shape) = Ok SHt /\
    (HS <- mul H_shape (sigma one_landmark_state) ;; mul HS (transpose H_shape))
      = Ok HSHt /\
    rows HSHt = 2%nat /\ cols HSHt = 2%nat /\
    rows (of_Matrix3d negative_R) = 3%nat /\ cols (of_Matrix3d negative_R) = 3%nat /\
    add HSHt (of_Matrix3d negative_R) = Err EigenAssert /\
    kalmanGain (sigma one_landmark_state) H_shape negative_R = Err EigenAssert.
Proof.
  split; [reflexivity |]. split; [reflexivity |].
  split; [reflexivity |]. split; [reflexivity |].
  apply (C3_gain_adds_full_Rnoise (sigma one_landmark_state) H_shape negative_R 5);
    reflexivity.
Defined.

(** ** C4: heading after a prediction *)

Lemma PI_lt_5 : PI < 5.
Proof. pose proof PI_4. lra. Qed.

(** C4, counterexample.  From a fresh estimator with Q = 0 the twist
    (5, 0, 0) leaves the heading at 5, which is above pi. *)
Lemma C4_heading_leaves_range :
  exists st0 st1 w1,
    Slam_new quiet_world 0 Zero3 Zero3 = Ok st0 /\
    MotionModelUpdate st0 quiet_world spin5 = Ok (st1, w1) /\
    ~ in_half_open_turn (mu_at st1 0).
Proof.
  destruct (Slam_new_spec quiet_world 0 Zero3 Zero3)
    as (st0 & H0 & Hsz0 & HQ0 & _ & Hmu0 & _); [lia | lia |].
  change (Z.to_nat (3 + 2 * 0)) with 3%nat in Hsz0.
  destruct (predict_heading st0 3 quiet_world spin5 Hsz0)
    as (st1 & w1 & H1 & _ & _ & _ & Hth1).
  exists st0, st1, w1. split; [exact H0 | split; [exact H1 |]].
  rewrite Hth1, Hmu0, (getStateNoise_zero_Q st0 quiet_world HQ0).
  unfold in_half_open_turn. cbn. pose proof PI_lt_5. lra.
Qed.

(** C4, as amended.  On every well-sized state and for every twist the
    prediction completes, and the new heading is the old one plus the
    rotation increment omega plus the first noise component: the sum is
    stored as it is, so it lies in (-pi, pi] exactly when the sum does. *)
Theorem C4_heading_is_unwrapped_sum (st : Slam) (n : nat) (w : World) (tw : Twist2D) :
  sized st n ->
  exists st' w',
    MotionModelUpdate st w tw = Ok (st', w') /\
    mu_at st' 0 = mu_at st 0 + (wz tw + v0 (fst (getStateNoise st w))) /\
    (in_half_open_turn (mu_at st' 0) <->
     in_half_open_turn (mu_at st 0 + (wz tw + v0 (fst (getStateNoise st w))))).
Proof.
  intros Hsz.
  destruct (predict_heading st n w tw Hsz) as (st' & w' & H & _ & _ & _ & Hth).
  exists st', w'. split; [exact H | split; [exact Hth |]].
  rewrite Hth. tauto.
Qed.

Lemma C4_heading_is_unwrapped_sum_witness :
  sized origin_state 3 /\
  exists st' w',
    MotionModelUpdate origin_state loud_world spin5 = Ok (st', w') /\
    mu_at st' 0 =
      mu_at origin_state 0 + (wz spin5 + v0 (fst (getStateNoise origin_state loud_world))) /\
    (in_half_open_turn (mu_at st' 0) <->
     in_half_open_turn
       (mu_at origin_state 0 + (wz spin5 + v0 (fst (getStateNoise origin_state loud_world))))).
Proof.
  split; [prove_sized |].
  apply (C4_heading_is_unwrapped_sum origin_state 3 loud_world spin5).
  prove_sized.
Defined.

(** ** C5: the innovation *)

Lemma getMeasurementNoise_zero_R (st : Slam) (w : World) :
  Rnoise st = Zero3 ->
  v0 (fst (getMeasurementNoise st w)) = 0 /\ v1 (fst (getMeasurementNoise st w)) = 0.
Proof.
  intros HR. unfold getMeasurementNoise. rewrite HR, llt_matrixL_Zero3.
  cbn. split; ring.
Qed.







(** ** C6: an observation at distance zero *)

(** C6, counterexample.  In a fresh estimator with one landmark the landmark
    estimate and the robot estimate coincide, so d = 0 for the first
    observation; the update does not return the unchanged state but ends
    with a non-finite Jacobian. *)
Lemma C6_zero_distance_update_fails :
  exists st0,
    Slam_new quiet_world 1 Zero3 Zero3 = Ok st0 /\
    sq_dist st0 0 = 0 /\
    MeasurmentModelUpdate st0 quiet_world one_observation = Err NotFinite /\
    forall w', MeasurmentModelUpdate st0 quiet_world one_observation <> Ok (st0, w').
Proof.
  destruct (Slam_new_spec quiet_world 1 Zero3 Zero3)
    as (st0 & H0 & Hsz0 & _ & _ & Hmu0 & _); [lia | lia |].
  change (Z.to_nat (3 + 2 * 1)) with 5%nat in Hsz0.
  assert (Hd : sq_dist st0 0 = 0).
  { unfold sq_dist. cbv zeta. rewrite !Hmu0. ring. }
  assert (HU : MeasurmentModelUpdate st0 quiet_world one_observation = Err NotFinite).
  { unfold MeasurmentModelUpdate, one_observation. cbn [centers radii update_from].
    cbn [vector_at nth_error bind].
    rewrite (update_observation_degenerate st0 5) by (assumption || lia).
    reflexivity. }
  exists st0. split; [exact H0 | split; [exact Hd | split; [exact HU |]]].
  intros w'. rewrite HU. discriminate.
Qed.

(** C6, as amended.  There is no guard for d = 0.  When the loop reaches an
    observation whose landmark estimate coincides with the robot estimate,
    the Jacobian divides by sqrt(d) and by d, nothing is skipped, and the
    update ends there with a non-finite value instead of a state. *)
Theorem C6_zero_distance_not_skipped (st : Slam) (n : nat) (w : World)
    (c : Point) (cs : list Point) (rs : list R) (i : nat) :
  sized st n -> (3 + 2 * i + 1 < n)%nat -> (i < length rs)%nat ->
  sq_dist st i = 0 ->
  update_from (c :: cs) rs i st w = Err NotFinite.
Proof.
  intros Hsz Hi Hr Hd. cbn [update_from].
  destruct (vector_at_ok rs i Hr) as [r Er]. rewrite Er. cbn [bind].
  rewrite (update_observation_degenerate st n) by assumption. reflexivity.
Qed.

Lemma C6_zero_distance_not_skipped_witness :
  sized one_landmark_state 5 /\ (3 + 2 * 0 + 1 < 5)%nat /\
  (0 < length [1; 2])%nat /\ sq_dist one_landmark_state 0 = 0 /\
  update_from [mkPoint 1 0 0; side_observation] [1; 2] 0 one_landmark_state loud_world
    = Err NotFinite.
Proof.
  assert (Hd : sq_dist one_landmark_state 0 = 0)
    by (unfold sq_dist, mu_at; cbn; ring).
  split; [prove_sized |].
  split; [cbn; lia |]. split; [cbn; lia |]. split; [exact Hd |].
  apply (C6_zero_distance_not_skipped one_landmark_state 5 loud_world
           (mkPoint 1 0 0) [side_observation] [1; 2] 0).
  - prove_sized.
  - cbn; lia.
  - cbn; lia.
  - exact Hd.
Defined.

(** ** C7: construction *)

Lemma skew_Q_not_spsd : ~ spsd3 skew_Q.
Proof. intros [(H01 & _) _]. cbn in H01. lra. Qed.

Lemma negative_R_not_spsd : ~ spsd2_block negative_R.
Proof. intros [_ H]. specialize (H 1 0). unfold quad3 in H. cbn in H. lra. Qed.

(** C7, counterexample.  A Q that is not symmetric and an R whose top-left
    block is not positive semi-definite are accepted: the constructor
    returns an estimator that holds them. *)
Lemma C7_invalid_noise_accepted :
  ~ spsd3 skew_Q /\ ~ spsd2_block negative_R /\
  exists st,
    Slam_new quiet_world 0 skew_Q negative_R = Ok st /\
    Qnoise st = skew_Q /\ Rnoise st = negative_R.
Proof.
  split; [exact skew_Q_not_spsd | split; [exact negative_R_not_spsd |]].
  destruct (Slam_new_spec quiet_world 0 skew_Q negative_R)
    as (st & H & _ & HQ & HR & _); [lia | lia |].
  exists st. auto.
Qed.

(** C7, as amended.  The constructor does not inspect Q or R.  For every
    landmark count L >= 0 whose state size fits an [int], and for all 3x3
    matrices Q and R, it returns an estimator of state size 3 + 2L that
    stores Q and R as given, with a zero mean. *)
Theorem C7_construction_does_not_validate (w : World) (L : Z) (Q Rn : Matrix3d) :
  (0 <= L)%Z -> (3 + 2 * L < 2 ^ 31)%Z ->
  exists st,
    Slam_new w L Q Rn = Ok st /\
    sized st (Z.to_nat (3 + 2 * L)) /\
    Qnoise st = Q /\ Rnoise st = Rn /\
    forall i, mu_at st i = 0.
Proof.
  intros HL Hmax.
  destruct (Slam_new_spec w L Q Rn HL Hmax) as (st & H & Hsz & HQ & HR & Hmu & _).
  exists st. auto.
Qed.

Lemma C7_construction_does_not_validate_witness :
  (0 <= 2)%Z /\ (3 + 2 * 2 < 2 ^ 31)%Z /\
  exists st,
    Slam_new loud_world 2 skew_Q negative_R = Ok st /\
    sized st (Z.to_nat (3 + 2 * 2)) /\
    Qnoise st = skew_Q /\ Rnoise st = negative_R /\
    forall i, mu_at st i = 0.
Proof.
  split; [lia |]. split; [lia |].
  apply (C7_construction_does_not_validate loud_world 2 skew_Q negative_R); lia.
Defined.

(** ** C8: symmetry of the covariance *)

Lemma initial_sigma_symmetric (w : World) (L : Z) (Q Rn : Matrix3d) :
  (0 <= L)%Z -> (3 + 2 * L < 2 ^ 31)%Z ->
  exists st, Slam_new w L Q Rn = Ok st /\ symmetric (sigma st).
Proof.
  intros HL Hmax.
  destruct (Slam_new_spec w L Q Rn HL Hmax)
    as (st & H & (_ & _ & _ & _ & Hr & Hc) & _ & _ & _ & HS).
  exists st. split; [exact H |]. split; [congruence |].
  intros i j Hi Hj. rewrite Hr in Hi, Hj.
  change (sigma_at st i j = sigma_at st j i).
  rewrite (HS i j Hi Hj), (HS j i Hj Hi).
  case_nat_tests; reflexivity.
Qed.

(** C8.  The covariance built by the constructor is symmetric, and whenever
    sigma and Q are symmetric the prediction step completes with
    sigma' = Gt * sigma * Gt^T + Qbar, which is symmetric again. *)
Theorem C8_prediction_preserves_symmetry :
  (forall (w : World) (L : Z) (Q Rn : Matrix3d),
      (0 <= L)%Z -> (3 + 2 * L < 2 ^ 31)%Z ->
      exists st, Slam_new w L Q Rn = Ok st /\ symmetric (sigma st)) /\
  (forall (st : Slam) (n : nat) (w : World) (tw : Twist2D),
      sized st n -> symmetric (sigma st) -> symmetric3 (Qnoise st) ->
      exists st' w',
        MotionModelUpdate st w tw = Ok (st', w') /\
        sigma st' = predicted_sigma n (sigma st) (Qnoise st)
                      (increment_jacobian tw (mu_at st 0)) /\
        symmetric (sigma st')).
Proof.
  split.
  - exact initial_sigma_symmetric.
  - intros st n w tw Hsz HS HQ. eexists _, _.
    split; [apply (MotionModelUpdate_sized st n w tw Hsz) |].
    split; [reflexivity |].
    cbn [predicted sigma]. apply predicted_sigma_symmetric; try assumption.
    destruct Hsz as (_ & _ & _ & _ & Hr & _). exact Hr.
Qed.

Lemma C8_prediction_preserves_symmetry_witness :
  ((0 <= 1)%Z /\ (3 + 2 * 1 < 2 ^ 31)%Z /\
   exists st, Slam_new quiet_world 1 Zero3 Zero3 = Ok st /\ symmetric (sigma st)) /\
  (sized origin_state 3 /\ symmetric (sigma origin_state) /\
   symmetric3 (Qnoise origin_state) /\
   exists st' w',
     MotionModelUpdate origin_state loud_world quarter_turn = Ok (st', w') /\
     sigma st' = predicted_sigma 3 (sigma origin_state) (Qnoise origin_state)
                   (increment_jacobian quarter_turn (mu_at origin_state 0)) /\
     symmetric (sigma st')).
Proof.
  split.
  - split; [lia |]. split; [lia |].
    apply (proj1 C8_prediction_preserves_symmetry quiet_world 1%Z Zero3 Zero3); lia.
  - split; [prove_sized |].
    split; [split; [reflexivity | intros; reflexivity] |].
    split; [repeat split |].
    apply (proj2 C8_prediction_preserves_symmetry origin_state 3%nat loud_world quarter_turn).
    + prove_sized.
    + split; [reflexivity | intros; reflexivity].
    + repeat split.
Defined.

(** ** C9: the radii of a batch *)

(** C9.  Two batches with the same centers and with radii sequences of the
    same length give the same outcome from the same estimator state and the
    same random source: the radius is read with [at] and never used. *)
Theorem C9_radii_do_not_influence (st : Slam) (w : World) (cs : list Point)
    (r1 r2 : list R) :
  length r1 = length r2 ->
  MeasurmentModelUpdate st w (mkTurtleMap cs r1) =
  MeasurmentModelUpdate st w (mkTurtleMap cs r2).
Proof.
  intros Hlen. unfold MeasurmentModelUpdate. cbn [centers radii].
  apply update_from_radii. exact Hlen.
Qed.

Lemma C9_radii_do_not_influence_witness :
  length [1; 2] = length [3; 4] /\
  MeasurmentModelUpdate one_landmark_state loud_world
    (mkTurtleMap [side_observation; mkPoint 1 0 0] [1; 2]) =
  MeasurmentModelUpdate one_landmark_state loud_world
    (mkTurtleMap [side_observation; mkPoint 1 0 0] [3; 4]).
Proof.
  split; [reflexivity |].
  apply (C9_radii_do_not_influence one_landmark_state loud_world
           [side_observation; mkPoint 1 0 0] [1; 2] [3; 4]).
  reflexivity.
Defined.

(** ** C10: prediction with zero process noise *)

Lemma predict_zero_Q_any_state (st : Slam) (tw : Twist2D) (w1 w2 : World) :
  Qnoise st = Zero3 ->
  rmap fst (MotionModelUpdate st w1 tw) = rmap fst (MotionModelUpdate st w2 tw).
Proof.
  intros HQ.
  pose proof (getStateNoise_zero_Q st w1 HQ) as H1.
  pose proof (getStateNoise_zero_Q st w2 HQ) as H2.
  unfold MotionModelUpdate.
  destruct (getStateNoise st w1) as [n1 w1'].
  destruct (getStateNoise st w2) as [n2 w2'].
  cbn [fst] in H1, H2. subst n1 n2.
  destruct (predict_with_noise st Zero3v tw) as [st' | e]; reflexivity.
Qed.

(** C10.  With Q = 0 the Cholesky factor is zero and the noise vector is
    zero for every random source, and two predictions from the same state
    with the same twist but different random sources complete with the same
    estimator state (mean, covariance and all). *)
Theorem C10_zero_Q_prediction_is_deterministic (st : Slam) (n : nat)
    (tw : Twist2D) (w1 w2 : World) :
  sized st n -> Qnoise st = Zero3 ->
  llt_matrixL (Qnoise st) = Zero3 /\
  fst (getStateNoise st w1) = Zero3v /\
  fst (getStateNoise st w2) = Zero3v /\
  exists st', MotionModelUpdate st w1 tw = Ok (st', snd (getStateNoise st w1)) /\
              MotionModelUpdate st w2 tw = Ok (st', snd (getStateNoise st w2)).
Proof.
  intros Hsz HQ.
  pose proof (getStateNoise_zero_Q st w1 HQ) as H1.
  pose proof (getStateNoise_zero_Q st w2 HQ) as H2.
  split; [rewrite HQ; apply llt_matrixL_Zero3 |].
  split; [exact H1 | split; [exact H2 |]].
  exists (predicted st n (increment tw (mu_at st 0))
            (increment_jacobian tw (mu_at st 0)) Zero3v).
  rewrite !(MotionModelUpdate_sized st n) by assumption.
  rewrite H1, H2. split; reflexivity.
Qed.

Lemma C10_zero_Q_prediction_is_deterministic_witness :
  sized origin_state 3 /\ Qnoise origin_state = Zero3 /\
  llt_matrixL (Qnoise origin_state) = Zero3 /\
  fst (getStateNoise origin_state quiet_world) = Zero3v /\
  fst (getStateNoise origin_state loud_world) = Zero3v /\
  exists st',
    MotionModelUpdate origin_state quiet_world spin5
      = Ok (st', snd (getStateNoise origin_state quiet_world)) /\
    MotionModelUpdate origin_state loud_world spin5
      = Ok (st', snd (getStateNoise origin_state loud_world)).
Proof.
  split; [prove_sized |]. split; [reflexivity |].
  apply (C10_zero_Q_prediction_is_deterministic origin_state 3 spin5
           quiet_world loud_world).
  - prove_sized.
  - reflexivity.
Defined.

(** * Further properties *)

(** ** Covariance propagation *)

Lemma sum_n_pick (n i : nat) (f : nat -> R) :
  (i < n)%nat ->
  sum_n n (fun l => (if (i =? l)%nat then 1 else 0) * f l) = f i.
Proof.
  induction n as [| n IH]; intros Hi; [lia |]. cbn [sum_n].
  destruct (Nat.eqb_spec i n) as [E | N].
  - subst i. rewrite (sum_n_ext n _ (fun _ => 0)).
    + rewrite sum_n_zero. ring.
    + intros k Hk. destruct (Nat.eqb_spec n k); [lia | ring].
  - rewrite IH by lia. ring.
Qed.

Lemma sum_n_scal (n : nat) (c : R) (g : nat -> R) :
  sum_n n (fun l => c * g l) = c * sum_n n g.
Proof.
  induction n as [| n IH]; cbn [sum_n]; [ring | rewrite IH; ring].
Qed.

Lemma sum_n_first (n : nat) (c : R) (f : nat -> R) :
  (0 < n)%nat ->
  sum_n n (fun l => (if (l =? 0)%nat then c else 0) * f l) = c * f 0%nat.
Proof.
  intros Hn.
  rewrite (sum_n_ext n _ (fun l => c * ((if (0 =? l)%nat then 1 else 0) * f l))).
  - rewrite sum_n_scal, sum_n_pick by assumption. reflexivity.
  - intros k _. destruct k; cbn; ring.
Qed.

Lemma Gt_coeff_split (d : Vector3d) (i l : nat) :
  Gt_coeff d i l =
  (if (l =? 0)%nat then jacobian_column d i else 0) + (if (i =? l)%nat then 1 else 0).
Proof.
  unfold Gt_coeff, jacobian_column.
  destruct i as [| [| [| i]]]; destruct l as [| l]; reflexivity.
Qed.

Lemma Gt_times (n : nat) (d : Vector3d) (i : nat) (f : nat -> R) :
  (0 < n)%nat -> (i < n)%nat ->
  sum_n n (fun l => Gt_coeff d i l * f l) = jacobian_column d i * f 0%nat + f i.
Proof.
  intros Hn Hi.
  rewrite (sum_n_ext n _
             (fun l => (if (l =? 0)%nat then jacobian_column d i else 0) * f l
                       + (if (i =? l)%nat then 1 else 0) * f l)).
  - rewrite sum_n_plus, sum_n_first, sum_n_pick by assumption. reflexivity.
  - intros l _. rewrite Gt_coeff_split. ring.
Qed.

Lemma predicted_sigma_entry (n : nat) (Sg : MatrixXd) (Q : Matrix3d)
    (d : Vector3d) (i j : nat) :
  (0 < n)%nat -> (i < n)%nat -> (j < n)%nat ->
  coeff (predicted_sigma n Sg Q d) i j =
  coeff Sg i j
  + jacobian_column d i * coeff Sg 0 j
  + jacobian_column d j * coeff Sg i 0
  + jacobian_column d i * jacobian_column d j * coeff Sg 0 0
  + Qbar_coeff Q i j.
Proof.
  intros Hn Hi Hj. cbn [predicted_sigma coeff]. f_equal.
  rewrite (sum_n_ext n _
             (fun k => Gt_coeff d j k *
                       (jacobian_column d i * coeff Sg 0 k + coeff Sg i k))).
  - rewrite Gt_times by assumption. ring.
  - intros k _. rewrite (Gt_times n d i (fun l => coeff Sg l k)) by assumption. ring.
Qed.

Lemma increment_jacobian_heading (tw : Twist2D) (th : R) :
  v0 (increment_jacobian tw th) = 0.
Proof.
  unfold increment_jacobian. destruct (Req_dec_T (wz tw) 0); reflexivity.
Qed.

Lemma Qbar_coeff_outside (Q : Matrix3d) (i j : nat) :
  (3 <= i)%nat \/ (3 <= j)%nat -> Qbar_coeff Q i j = 0.
Proof.
  intros H. unfold Qbar_coeff, in_block.
  destruct i as [| [| [| i]]]; destruct j as [| [| [| j]]]; cbn;
    try reflexivity; lia.
Qed.

Lemma jacobian_column_below (d : Vector3d) (i : nat) :
  (3 <= i)%nat -> jacobian_column d i = 0.
Proof. intros Hi. destruct i as [| [| [| i]]]; try lia. reflexivity. Qed.

(** X1.  The covariance after a prediction, entry by entry.  With g the
    first column of Gt - I (g_0 = 0, g_1 and g_2 the heading derivatives of
    the x and y increments, g_i = 0 on landmark rows), the new entry (i,j)
    is S_ij + g_i S_0j + g_j S_i0 + g_i g_j S_00, plus Q_ij inside the pose
    block. *)
Theorem X1_covariance_prediction_entries (st : Slam) (n : nat) (w : World)
    (tw : Twist2D) :
  sized st n ->
  exists st' w',
    MotionModelUpdate st w tw = Ok (st', w') /\
    let g := jacobian_column (increment_jacobian tw (mu_at st 0)) in
    g 0%nat = 0 /\ (forall i, (3 <= i)%nat -> g i = 0) /\
    forall i j, (i < n)%nat -> (j < n)%nat ->
      sigma_at st' i j =
      sigma_at st i j + g i * sigma_at st 0 j + g j * sigma_at st i 0
      + g i * g j * sigma_at st 0 0 + Qbar_coeff (Qnoise st) i j.
Proof.
  intros Hsz. pose proof Hsz as (Hn & _).
  eexists _, _. split; [apply (MotionModelUpdate_sized st n w tw Hsz) |].
  cbv zeta. split; [apply increment_jacobian_heading |].
  split; [intros i Hi; apply jacobian_column_below; assumption |].
  intros i j Hi Hj. unfold sigma_at. cbn [predicted sigma].
  apply predicted_sigma_entry; lia.
Qed.

Lemma X1_covariance_prediction_entries_witness :
  sized one_landmark_state 5 /\
  exists st' w',
    MotionModelUpdate one_landmark_state loud_world arc = Ok (st', w') /\
    let g := jacobian_column (increment_jacobian arc (mu_at one_landmark_state 0)) in
    g 0%nat = 0 /\ (forall i, (3 <= i)%nat -> g i = 0) /\
    forall i j, (i < 5)%nat -> (j < 5)%nat ->
      sigma_at st' i j =
      sigma_at one_landmark_state i j + g i * sigma_at one_landmark_state 0 j
      + g j * sigma_at one_landmark_state i 0
      + g i * g j * sigma_at one_landmark_state 0 0
      + Qbar_coeff (Qnoise one_landmark_state) i j.
Proof.
  split; [prove_sized |].
  apply (X1_covariance_prediction_entries one_landmark_state 5 loud_world arc).
  prove_sized.
Defined.

(** X2.  A prediction leaves the landmarks alone: their means keep their
    values and the landmark-landmark block of the covariance is unchanged;
    a pose-landmark entry (i,j) changes by g_i S_0j only. *)
Theorem X2_prediction_keeps_landmarks (st : Slam) (n : nat) (w : World)
    (tw : Twist2D) :
  sized st n ->
  exists st' w',
    MotionModelUpdate st w tw = Ok (st', w') /\
    (forall i, (3 <= i)%nat -> mu_at st' i = mu_at st i) /\
    (forall i j, (3 <= i < n)%nat -> (3 <= j < n)%nat ->
                 sigma_at st' i j = sigma_at st i j) /\
    (forall i j, (i < 3)%nat -> (3 <= j < n)%nat ->
                 sigma_at st' i j =
                 sigma_at st i j
                 + jacobian_column (increment_jacobian tw (mu_at st 0)) i
                   * sigma_at st 0 j).
Proof.
  intros Hsz. pose proof Hsz as (Hn & _).
  eexists _, _. split; [apply (MotionModelUpdate_sized st n w tw Hsz) |].
  split; [intros i Hi; apply predicted_landmarks; assumption |].
  split; intros i j Hi Hj; unfold sigma_at; cbn [predicted sigma];
    rewrite predicted_sigma_entry by lia;
    rewrite Qbar_coeff_outside by lia;
    rewrite (jacobian_column_below _ j) by lia.
  - rewrite (jacobian_column_below _ i) by lia. ring.
  - ring.
Qed.

Lemma X2_prediction_keeps_landmarks_witness :
  sized one_landmark_state 5 /\
  exists st' w',
    MotionModelUpdate one_landmark_state loud_world arc = Ok (st', w') /\
    (forall i, (3 <= i)%nat -> mu_at st' i = mu_at one_landmark_state i) /\
    (forall i j, (3 <= i < 5)%nat -> (3 <= j < 5)%nat ->
                 sigma_at st' i j = sigma_at one_landmark_state i j) /\
    (forall i j, (i < 3)%nat -> (3 <= j < 5)%nat ->
                 sigma_at st' i j =
                 sigma_at one_landmark_state i j
                 + jacobian_column
                     (increment_jacobian arc (mu_at one_landmark_state 0)) i
                   * sigma_at one_landmark_state 0 j).
Proof.
  split; [prove_sized |].
  apply (X2_prediction_keeps_landmarks one_landmark_state 5 loud_world arc).
  prove_sized.
Defined.

(** X3.  Each prediction adds exactly Q(0,0) to the heading variance,
    whatever the twist and the heading are: row 0 of Gt is the unit row. *)
Theorem X3_heading_variance_grows_by_Q00 (st : Slam) (n : nat) (w : World)
    (tw : Twist2D) :
  sized st n ->
  exists st' w',
    MotionModelUpdate st w tw = Ok (st', w') /\
    sigma_at st' 0 0 = sigma_at st 0 0 + m00 (Qnoise st).
Proof.
  intros Hsz. pose proof Hsz as (Hn & _).
  eexists _, _. split; [apply (MotionModelUpdate_sized st n w tw Hsz) |].
  unfold sigma_at. cbn [predicted sigma].
  rewrite predicted_sigma_entry by lia.
  cbn [jacobian_column]. rewrite increment_jacobian_heading.
  unfold Qbar_coeff. cbn. ring.
Qed.

Lemma X3_heading_variance_grows_by_Q00_witness :
  sized origin_state 3 /\
  exists st' w',
    MotionModelUpdate origin_state loud_world arc = Ok (st', w') /\
    sigma_at st' 0 0 = sigma_at origin_state 0 0 + m00 (Qnoise origin_state).
Proof.
  split; [prove_sized |].
  apply (X3_heading_variance_grows_by_Q00 origin_state 3 loud_world arc).
  prove_sized.
Defined.

Lemma increment_rest (th : R) :
  increment rest_twist th = Zero3v /\ increment_jacobian rest_twist th = Zero3v.
Proof.
  unfold increment, increment_jacobian, rest_twist. cbn [wz vx vy].
  destruct (Req_dec_T 0 0) as [_ | N]; [| now elim N].
  unfold Zero3v. split; f_equal; ring.
Qed.

(** X4.  The zero twist moves nothing by itself: the mean changes by the
    noise sample only, and the covariance becomes sigma + Qbar.  With Q = 0
    the mean and every entry of the covariance stay as they were. *)
Theorem X4_zero_twist (st : Slam) (n : nat) (w : World) :
  sized st n ->
  exists st' w',
    MotionModelUpdate st w rest_twist = Ok (st', w') /\
    mu_at st' 0 = mu_at st 0 + v0 (fst (getStateNoise st w)) /\
    mu_at st' 1 = mu_at st 1 + v1 (fst (getStateNoise st w)) /\
    mu_at st' 2 = mu_at st 2 + v2 (fst (getStateNoise st w)) /\
    (forall i j, (i < n)%nat -> (j < n)%nat ->
                 sigma_at st' i j = sigma_at st i j + Qbar_coeff (Qnoise st) i j) /\
    (Qnoise st = Zero3 ->
     (forall i, mu_at st' i = mu_at st i) /\
     (forall i j, (i < n)%nat -> (j < n)%nat -> sigma_at st' i j = sigma_at st i j)).
Proof.
  intros Hsz. pose proof Hsz as (Hn & _).
  destruct (increment_rest (mu_at st 0)) as [Hu Hd].
  assert (HS : forall i j, (i < n)%nat -> (j < n)%nat ->
            coeff (predicted_sigma n (sigma st) (Qnoise st) Zero3v) i j =
            sigma_at st i j + Qbar_coeff (Qnoise st) i j).
  { intros i j Hi Hj. rewrite predicted_sigma_entry by lia.
    assert (Hz : forall k, jacobian_column Zero3v k = 0)
      by (intros [| [| [| k]]]; reflexivity).
    rewrite !Hz. unfold sigma_at. ring. }
  eexists _, _. split; [apply (MotionModelUpdate_sized st n w rest_twist Hsz) |].
  rewrite predicted_mu0, predicted_mu1, predicted_mu2, Hu, Hd.
  cbn [v0 v1 v2 Zero3v].
  split; [ring | split; [ring | split; [ring |]]].
  split; [intros i j Hi Hj; unfold sigma_at at 1; cbn [predicted sigma]; apply HS; assumption |].
  intros HQ. split.
  - intros i. unfold mu_at, predicted, predicted_mean. cbn [prev_state coeff].
    rewrite (getStateNoise_zero_Q st w HQ). cbn [v0 v1 v2 Zero3v].
    destruct i as [| [| [| i]]]; cbn; try ring.
  - intros i j Hi Hj. unfold sigma_at at 1. cbn [predicted sigma].
    rewrite HS by assumption. rewrite HQ.
    assert (HZ : Qbar_coeff Zero3 i j = 0).
    { unfold Qbar_coeff. destruct (in_block 0 0 3 3 i j); [| reflexivity].
      destruct (i - 0)%nat as [| [| [| a]]]; destruct (j - 0)%nat as [| [| [| b]]];
        reflexivity. }
    rewrite HZ. ring.
Qed.

Lemma X4_zero_twist_witness :
  sized one_landmark_state 5 /\
  exists st' w',
    MotionModelUpdate one_landmark_state loud_world rest_twist = Ok (st', w') /\
    mu_at st' 0 = mu_at one_landmark_state 0
                  + v0 (fst (getStateNoise one_landmark_state loud_world)) /\
    mu_at st' 1 = mu_at one_landmark_state 1
                  + v1 (fst (getStateNoise one_landmark_state loud_world)) /\
    mu_at st' 2 = mu_at one_landmark_state 2
                  + v2 (fst (getStateNoise one_landmark_state loud_world)) /\
    (forall i j, (i < 5)%nat -> (j < 5)%nat ->
                 sigma_at st' i j =
                 sigma_at one_landmark_state i j
                 + Qbar_coeff (Qnoise one_landmark_state) i j) /\
    (Qnoise one_landmark_state = Zero3 ->
     (forall i, mu_at st' i = mu_at one_landmark_state i) /\
     (forall i j, (i < 5)%nat -> (j < 5)%nat ->
                  sigma_at st' i j = sigma_at one_landmark_state i j)).
Proof.
  split; [prove_sized |].
  apply (X4_zero_twist one_landmark_state 5 loud_world).
  prove_sized.
Defined.

(** ** Positive semi-definiteness through a prediction *)

Lemma sum_n_prod (n m : nat) (a b : nat -> R) :
  sum_n n (fun i => sum_n m (fun j => a i * b j)) = sum_n n a * sum_n m b.
Proof.
  rewrite (sum_n_ext n _ (fun i => a i * sum_n m b))
    by (intros; apply sum_n_scal).
  symmetry. apply sum_n_mult_r.
Qed.

Lemma sum_n_three (n : nat) (f : nat -> R) :
  (3 <= n)%nat -> (forall k, (3 <= k)%nat -> f k = 0) ->
  sum_n n f = f 0%nat + f 1%nat + f 2%nat.
Proof.
  intros Hn Hf. induction n as [| n IH]; [lia |].
  destruct (Nat.eq_dec n 2) as [E | N].
  - subst n. cbn [sum_n]. ring.
  - cbn [sum_n]. rewrite IH by lia. rewrite (Hf n) by lia. ring.
Qed.

Lemma quad_form_Qbar (n : nat) (Q : Matrix3d) (x : nat -> R) :
  (3 <= n)%nat ->
  quad_form n (Qbar_coeff Q) x = quad3 Q (x 0%nat) (x 1%nat) (x 2%nat).
Proof.
  intros Hn. unfold quad_form.
  assert (Hin : forall i, sum_n n (fun j => x i * Qbar_coeff Q i j * x j) =
                          x i * Qbar_coeff Q i 0 * x 0%nat
                          + x i * Qbar_coeff Q i 1 * x 1%nat
                          + x i * Qbar_coeff Q i 2 * x 2%nat).
  { intros i. apply (sum_n_three n (fun j => x i * Qbar_coeff Q i j * x j) Hn).
    intros k Hk. rewrite Qbar_coeff_outside by lia. ring. }
  rewrite (sum_n_ext n _ _ (fun i _ => Hin i)).
  rewrite sum_n_three; [| assumption |].
  - unfold Qbar_coeff, quad3. cbn. ring.
  - intros k Hk. rewrite !Qbar_coeff_outside by lia. ring.
Qed.

Lemma quad_form_predicted (n : nat) (Sg : MatrixXd) (Q : Matrix3d)
    (d : Vector3d) (x : nat -> R) :
  (3 <= n)%nat ->
  quad_form n (coeff (predicted_sigma n Sg Q d)) x =
  quad_form n (coeff Sg) (pulled_back n d x) + quad3 Q (x 0%nat) (x 1%nat) (x 2%nat).
Proof.
  intros Hn.
  set (g := jacobian_column d).
  set (c := sum_n n (fun i => x i * g i)).
  set (A := quad_form n (coeff Sg) x).
  set (r := sum_n n (fun k => coeff Sg 0 k * x k)).
  set (l := sum_n n (fun i => x i * coeff Sg i 0)).
  assert (Hc' : sum_n n (fun j => g j * x j) = c).
  { unfold c. apply sum_n_ext. intros; ring. }
  (* left-hand side *)
  assert (HL : quad_form n (coeff (predicted_sigma n Sg Q d)) x =
               A + c * r + l * c + c * c * coeff Sg 0 0 + quad_form n (Qbar_coeff Q) x).
  { unfold quad_form at 1.
    rewrite (sum_n_ext n _
      (fun i => sum_n n (fun j => x i * coeff Sg i j * x j)
                + (sum_n n (fun j => (x i * g i) * (coeff Sg 0 j * x j))
                + (sum_n n (fun j => (x i * coeff Sg i 0) * (g j * x j))
                + (sum_n n (fun j => (x i * g i * coeff Sg 0 0) * (g j * x j))
                + sum_n n (fun j => x i * Qbar_coeff Q i j * x j)))))).
    - rewrite !sum_n_plus.
      rewrite !sum_n_prod, Hc'. fold r.
      rewrite <- (sum_n_mult_r n (fun i => x i * g i) (coeff Sg 0 0)). fold c l.
      unfold A, quad_form. ring.
    - intros i Hi. rewrite <- !sum_n_plus. apply sum_n_ext. intros j Hj.
      rewrite predicted_sigma_entry by lia. fold g. ring. }
  (* right-hand side *)
  assert (HR : quad_form n (coeff Sg) (pulled_back n d x) =
               A + c * r + l * c + c * c * coeff Sg 0 0).
  { pose (e := fun k : nat => if (k =? 0)%nat then 1 else 0).
    assert (He : forall f, sum_n n (fun k => e k * f k) = f 0%nat).
    { intros f. unfold e. rewrite sum_n_first by lia. ring. }
    unfold quad_form at 1.
    transitivity
      (sum_n n (fun i => sum_n n (fun j => x i * coeff Sg i j * x j)
                + (c * (x i * coeff Sg i 0)
                + (c * (e i * sum_n n (fun j => coeff Sg i j * x j))
                + c * c * (e i * coeff Sg i 0))))).
    - apply sum_n_ext. intros i Hi.
      transitivity
        (sum_n n (fun j => x i * coeff Sg i j * x j
                  + ((e i * c) * (coeff Sg i j * x j)
                  + ((x i + e i * c) * c * (e j * coeff Sg i j))))).
      + apply sum_n_ext. intros j Hj. unfold pulled_back, e, c, g. ring.
      + rewrite !sum_n_plus, !sum_n_scal.
        rewrite (He (fun j => coeff Sg i j)). ring.
    - rewrite !sum_n_plus, !sum_n_scal.
      rewrite (He (fun i => sum_n n (fun j => coeff Sg i j * x j))).
      rewrite (He (fun i => coeff Sg i 0)).
      fold r l. unfold A, quad_form. ring. }
  rewrite HL, HR, quad_form_Qbar by assumption. reflexivity.
Qed.

Lemma predicted_sigma_psd (n : nat) (Sg : MatrixXd) (Q : Matrix3d) (d : Vector3d) :
  (3 <= n)%nat -> rows Sg = n -> positive_semidefinite Sg -> psd3 Q ->
  positive_semidefinite (predicted_sigma n Sg Q d).
Proof.
  intros Hn Hr HS HQ x. cbn [predicted_sigma rows].
  change (0 <= quad_form n (coeff (predicted_sigma n Sg Q d)) x).
  rewrite quad_form_predicted by assumption.
  unfold positive_semidefinite in HS. rewrite Hr in HS.
  pose proof (HS (pulled_back n d x)). pose proof (HQ (x 0%nat) (x 1%nat) (x 2%nat)).
  lra.
Qed.

(** X5.  Positive semi-definiteness is kept by a prediction: if sigma and Q
    are positive semi-definite (as quadratic forms) then so is the new
    covariance Gt * sigma * Gt^T + Qbar. *)
Theorem X5_prediction_keeps_psd (st : Slam) (n : nat) (w : World) (tw : Twist2D) :
  sized st n -> positive_semidefinite (sigma st) -> psd3 (Qnoise st) ->
  exists st' w',
    MotionModelUpdate st w tw = Ok (st', w') /\
    positive_semidefinite (sigma st').
Proof.
  intros Hsz HS HQ. pose proof Hsz as (Hn & _ & _ & _ & Hr & _).
  eexists _, _. split; [apply (MotionModelUpdate_sized st n w tw Hsz) |].
  cbn [predicted sigma]. apply predicted_sigma_psd; assumption.
Qed.

Lemma zero_matrix_psd (n : nat) :
  positive_semidefinite (mkMatrix n n (fun _ _ => 0)).
Proof.
  intros x. cbn [rows coeff]. unfold quad_form.
  rewrite (sum_n_ext n _ (fun _ => 0)); [rewrite sum_n_zero; lra |].
  intros i _. rewrite (sum_n_ext n _ (fun _ => 0)); [apply sum_n_zero |].
  intros j _. ring.
Qed.

Lemma sample_Q_psd : psd3 sample_Q.
Proof.
  intros a b c. unfold quad3, sample_Q. cbn.
  assert (H : 0 <= (2 * a + b) * (2 * a + b) + (2 * b) * (2 * b) + c * c) by nra.
  nra.
Qed.

Lemma X5_prediction_keeps_psd_witness :
  let st := mkSlam sample_Q Zero3 3 (mkMatrix 3 1 (fun _ _ => 0))
              (mkMatrix 3 3 (fun _ _ => 0)) in
  sized st 3 /\ positive_semidefinite (sigma st) /\ psd3 (Qnoise st) /\
  exists st' w',
    MotionModelUpdate st loud_world arc = Ok (st', w') /\
    positive_semidefinite (sigma st').
Proof.
  cbv zeta.
  split; [prove_sized |].
  split; [exact (zero_matrix_psd 3) |].
  split; [exact sample_Q_psd |].
  apply (X5_prediction_keeps_psd
           (mkSlam sample_Q Zero3 3 (mkMatrix 3 1 (fun _ _ => 0))
              (mkMatrix 3 3 (fun _ _ => 0))) 3 loud_world arc).
  - prove_sized.
  - exact (zero_matrix_psd 3).
  - exact sample_Q_psd.
Defined.

(** ** Sequences of predictions *)

Lemma predict_sequence_step (tw : Twist2D) (tws : list Twist2D) (st : Slam)
    (n : nat) (w : World) :
  sized st n ->
  predict_sequence (tw :: tws) st w =
  predict_sequence tws
    (predicted st n (increment tw (mu_at st 0))
       (increment_jacobian tw (mu_at st 0)) (fst (getStateNoise st w)))
    (snd (getStateNoise st w)).
Proof.
  intros Hsz. cbn [predict_sequence].
  rewrite (MotionModelUpdate_sized st n w tw Hsz). reflexivity.
Qed.

(** X6.  Any number of predictions in a row completes on a well-sized
    estimator.  k predictions take exactly 3k draws from the random source,
    keep Q, R and the sizes, and add k * Q(0,0) to the heading variance. *)
Theorem X6_prediction_sequence_completes (tws : list Twist2D) :
  forall (st : Slam) (n : nat) (w : World),
  sized st n ->
  exists st' w',
    predict_sequence tws st w = Ok (st', w') /\
    sized st' n /\ Qnoise st' = Qnoise st /\ Rnoise st' = Rnoise st /\
    drawn w' = (drawn w + 3 * length tws)%nat /\
    normal_draws w' = normal_draws w /\
    sigma_at st' 0 0 = sigma_at st 0 0 + INR (length tws) * m00 (Qnoise st).
Proof.
  induction tws as [| tw tws IH]; intros st n w Hsz.
  - exists st, w. cbn [predict_sequence length INR].
    split; [reflexivity | split; [exact Hsz |]].
    split; [reflexivity | split; [reflexivity |]].
    split; [lia | split; [reflexivity | ring]].
  - rewrite (predict_sequence_step tw tws st n w Hsz).
    pose proof (predicted_sized st n (increment tw (mu_at st 0))
                  (increment_jacobian tw (mu_at st 0))
                  (fst (getStateNoise st w)) Hsz) as Hsz1.
    destruct (IH _ n (snd (getStateNoise st w)) Hsz1)
      as (st' & w' & Hrun & Hsz' & HQ & HR & Hd & Hs & Hv).
    exists st', w'. split; [exact Hrun |]. split; [exact Hsz' |].
    split; [exact HQ | split; [exact HR |]].
    split; [rewrite Hd, getStateNoise_drawn; cbn [drawn length]; lia |].
    split; [rewrite Hs, getStateNoise_drawn; reflexivity |].
    rewrite Hv. cbn [predicted Qnoise]. unfold sigma_at at 1. cbn [predicted sigma].
    destruct Hsz as (Hn & _).
    rewrite predicted_sigma_entry by lia.
    cbn [jacobian_column]. rewrite increment_jacobian_heading.
    change (length (tw :: tws)) with (S (length tws)). rewrite S_INR.
    unfold Qbar_coeff, sigma_at. cbn. ring.
Qed.

Lemma X6_prediction_sequence_completes_witness :
  sized origin_state 3 /\
  exists st' w',
    predict_sequence [arc; rest_twist; forward] origin_state loud_world = Ok (st', w') /\
    sized st' 3 /\ Qnoise st' = Qnoise origin_state /\
    Rnoise st' = Rnoise origin_state /\
    drawn w' = (drawn loud_world + 3 * length [arc; rest_twist; forward])%nat /\
    normal_draws w' = normal_draws loud_world /\
    sigma_at st' 0 0 =
      sigma_at origin_state 0 0
      + INR (length [arc; rest_twist; forward]) * m00 (Qnoise origin_state).
Proof.
  split; [prove_sized |].
  apply (X6_prediction_sequence_completes [arc; rest_twist; forward]
           origin_state 3 loud_world).
  prove_sized.
Defined.

(** X7.  With Q = 0 the heading after a sequence of predictions is the
    prior heading plus the sum of the commanded rotation rates; it is never
    wrapped, however large the sum. *)
Theorem X7_heading_accumulates (tws : list Twist2D) :
  forall (st : Slam) (n : nat) (w : World),
  sized st n -> Qnoise st = Zero3 ->
  exists st' w',
    predict_sequence tws st w = Ok (st', w') /\
    mu_at st' 0 = mu_at st 0 + total_turn tws.
Proof.
  induction tws as [| tw tws IH]; intros st n w Hsz HQ.
  - exists st, w. cbn [predict_sequence total_turn fold_right].
    split; [reflexivity | ring].
  - rewrite (predict_sequence_step tw tws st n w Hsz).
    pose proof (predicted_sized st n (increment tw (mu_at st 0))
                  (increment_jacobian tw (mu_at st 0))
                  (fst (getStateNoise st w)) Hsz) as Hsz1.
    destruct (IH _ n (snd (getStateNoise st w)) Hsz1 HQ)
      as (st' & w' & Hrun & Hth).
    exists st', w'. split; [exact Hrun |].
    rewrite Hth, predicted_mu0, increment_heading, (getStateNoise_zero_Q st w HQ).
    cbn [total_turn fold_right v0 Zero3v]. fold (total_turn tws). ring.
Qed.

Lemma X7_heading_accumulates_witness :
  sized origin_state 3 /\ Qnoise origin_state = Zero3 /\
  exists st' w',
    predict_sequence [spin5; spin5; arc] origin_state loud_world = Ok (st', w') /\
    mu_at st' 0 = mu_at origin_state 0 + total_turn [spin5; spin5; arc].
Proof.
  split; [prove_sized |]. split; [reflexivity |].
  apply (X7_heading_accumulates [spin5; spin5; arc] origin_state 3 loud_world).
  - prove_sized.
  - reflexivity.
Defined.

(** ** The landmark prior under predictions *)

Lemma predicted_landmark_prior (st : Slam) (n : nat) (u du noise : Vector3d) :
  sized st n -> landmark_prior st n ->
  landmark_prior (predicted st n u du noise) n.
Proof.
  intros (Hn & _) [Hmu HS]. split.
  - intros i Hi. rewrite predicted_landmarks by assumption. apply Hmu; assumption.
  - intros i j Hi Hj Hij. unfold sigma_at. cbn [predicted sigma].
    rewrite predicted_sigma_entry by lia.
    rewrite Qbar_coeff_outside by assumption.
    fold (sigma_at st i j) (sigma_at st 0 j) (sigma_at st i 0) (sigma_at st 0 0).
    destruct Hij as [H3 | H3].
    + rewrite (jacobian_column_below du i H3).
      rewrite (HS i 0%nat) by lia. rewrite (HS i j) by lia.
      destruct (Nat.eqb_spec i 0); [lia |]. ring.
    + rewrite (jacobian_column_below du j H3).
      rewrite (HS 0%nat j) by lia. rewrite (HS i j) by lia.
      destruct (Nat.eqb_spec 0 j); [lia |]. ring.
Qed.

Lemma predict_sequence_invariants (tws : list Twist2D) :
  forall (st : Slam) (n : nat) (w : World),
  sized st n ->
  exists st' w',
    predict_sequence tws st w = Ok (st', w') /\
    (landmark_prior st n -> landmark_prior st' n) /\
    (symmetric3 (Qnoise st) -> symmetric (sigma st) -> symmetric (sigma st')) /\
    (psd3 (Qnoise st) -> positive_semidefinite (sigma st) ->
     positive_semidefinite (sigma st')).
Proof.
  induction tws as [| tw tws IH]; intros st n w Hsz.
  - exists st, w. cbn [predict_sequence]. auto.
  - rewrite (predict_sequence_step tw tws st n w Hsz).
    set (st1 := predicted st n (increment tw (mu_at st 0))
                  (increment_jacobian tw (mu_at st 0)) (fst (getStateNoise st w))).
    assert (Hsz1 : sized st1 n) by (apply predicted_sized; assumption).
    destruct (IH st1 n (snd (getStateNoise st w)) Hsz1)
      as (st' & w' & Hrun & HL & HS & HP).
    pose proof Hsz as (Hn & _ & _ & _ & Hr & _).
    exists st', w'. split; [exact Hrun |].
    split; [| split].
    + intros H. apply HL. apply predicted_landmark_prior; assumption.
    + intros HQ Hsym. apply HS; [exact HQ |].
      apply predicted_sigma_symmetric; assumption.
    + intros HQ Hpsd. apply HP; [exact HQ |].
      apply predicted_sigma_psd; assumption.
Qed.

Lemma sum_n_nonneg (n : nat) (f : nat -> R) :
  (forall k, (k < n)%nat -> 0 <= f k) -> 0 <= sum_n n f.
Proof.
  induction n as [| n IH]; intros H; cbn [sum_n]; [lra |].
  assert (0 <= sum_n n f) by (apply IH; intros; apply H; lia).
  assert (0 <= f n) by (apply H; lia). lra.
Qed.

Lemma initial_sigma_psd (st : Slam) (n : nat) :
  rows (sigma st) = n ->
  (forall i j, (i < n)%nat -> (j < n)%nat ->
     sigma_at st i j = if ((3 <=? i)%nat && (i =? j)%nat) then 10000 else 0) ->
  positive_semidefinite (sigma st).
Proof.
  intros Hr HS x. rewrite Hr. unfold quad_form.
  apply sum_n_nonneg. intros i Hi.
  rewrite (sum_n_ext n _
             (fun j => (if (i =? j)%nat then 1 else 0)
                       * ((if (3 <=? i)%nat then 10000 else 0) * x i * x j))).
  - rewrite sum_n_pick by assumption.
    destruct (3 <=? i)%nat; nra.
  - intros j Hj. change (coeff (sigma st) i j) with (sigma_at st i j).
    rewrite (HS i j Hi Hj).
    destruct (3 <=? i)%nat; destruct (i =? j)%nat; cbn [andb]; ring.
Qed.

(** X8.  Predictions never touch the landmark prior.  After construction
    and any sequence of predictions, every landmark mean is still 0, every
    landmark variance is still 10000 and every covariance entry that
    involves a landmark is still 0 off the diagonal; and the covariance is
    symmetric if Q is, and positive semi-definite if Q is. *)
Theorem X8_fresh_estimator_under_predictions (w : World) (L : Z)
    (Q Rn : Matrix3d) (tws : list Twist2D) :
  (0 <= L)%Z -> (3 + 2 * L < 2 ^ 31)%Z ->
  exists st0,
    Slam_new w L Q Rn = Ok st0 /\
    forall w0, exists st w',
      predict_sequence tws st0 w0 = Ok (st, w') /\
      landmark_prior st (Z.to_nat (3 + 2 * L)) /\
      (symmetric3 Q -> symmetric (sigma st)) /\
      (psd3 Q -> positive_semidefinite (sigma st)).
Proof.
  intros HL Hmax.
  destruct (Slam_new_spec w L Q Rn HL Hmax)
    as (st0 & H0 & Hsz & HQ & _ & Hmu & HS).
  exists st0. split; [exact H0 |]. intros w0.
  destruct (predict_sequence_invariants tws st0 _ w0 Hsz)
    as (st & w' & Hrun & Hprior & Hsym & Hpsd).
  exists st, w'. split; [exact Hrun |].
  pose proof Hsz as (_ & _ & _ & _ & Hr & Hc).
  split; [| split].
  - apply Hprior. split; [intros i _; apply Hmu |].
    intros i j Hi Hj Hij. rewrite (HS i j Hi Hj).
    destruct (Nat.leb_spec 3 i) as [H3 | H3]; cbn [andb]; [reflexivity |].
    destruct (Nat.eqb_spec i j); [lia | reflexivity].
  - intros HsQ. apply Hsym; [rewrite HQ; exact HsQ |].
    split; [congruence |]. intros i j Hi Hj. rewrite Hr in Hi, Hj.
    change (sigma_at st0 i j = sigma_at st0 j i).
    rewrite (HS i j Hi Hj), (HS j i Hj Hi). case_nat_tests; reflexivity.
  - intros HpQ. apply Hpsd; [rewrite HQ; exact HpQ |].
    apply (initial_sigma_psd st0 _ Hr HS).
Qed.

Lemma X8_fresh_estimator_under_predictions_witness :
  (0 <= 2)%Z /\ (3 + 2 * 2 < 2 ^ 31)%Z /\
  exists st0,
    Slam_new quiet_world 2 sample_Q Zero3 = Ok st0 /\
    forall w0, exists st w',
      predict_sequence [arc; forward] st0 w0 = Ok (st, w') /\
      landmark_prior st (Z.to_nat (3 + 2 * 2)) /\
      (symmetric3 sample_Q -> symmetric (sigma st)) /\
      (psd3 sample_Q -> positive_semidefinite (sigma st)).
Proof.
  split; [lia |]. split; [lia |].
  apply (X8_fresh_estimator_under_predictions quiet_world 2 sample_Q Zero3
           [arc; forward]); lia.
Defined.

(** ** Construction *)

(** X9.  The constructor fully determines the estimator: for L >= 0 the
    mean is zero and the covariance has zero pose block, zero pose-landmark
    blocks and 10000 on the landmark diagonal, and two constructions agree
    on every entry whatever the freshly resized storage held. *)
Theorem X9_construction_ignores_fresh_storage (w1 w2 : World) (L : Z)
    (Q Rn : Matrix3d) :
  (0 <= L)%Z -> (3 + 2 * L < 2 ^ 31)%Z ->
  exists st1 st2,
    Slam_new w1 L Q Rn = Ok st1 /\ Slam_new w2 L Q Rn = Ok st2 /\
    state_size st1 = (3 + 2 * L)%Z /\ state_size st2 = (3 + 2 * L)%Z /\
    rows (sigma st1) = rows (sigma st2) /\ cols (sigma st1) = cols (sigma st2) /\
    (forall i, mu_at st1 i = 0 /\ mu_at st2 i = 0) /\
    forall i j, (i < Z.to_nat (3 + 2 * L))%nat -> (j < Z.to_nat (3 + 2 * L))%nat ->
      sigma_at st1 i j = sigma_at st2 i j /\
      sigma_at st1 i j = if ((3 <=? i)%nat && (i =? j)%nat) then 10000 else 0.
Proof.
  intros HL Hmax.
  destruct (Slam_new_spec w1 L Q Rn HL Hmax)
    as (st1 & H1 & (_ & Hs1 & _ & _ & Hr1 & Hc1) & _ & _ & Hmu1 & HS1).
  destruct (Slam_new_spec w2 L Q Rn HL Hmax)
    as (st2 & H2 & (_ & Hs2 & _ & _ & Hr2 & Hc2) & _ & _ & Hmu2 & HS2).
  exists st1, st2. split; [exact H1 | split; [exact H2 |]].
  split; [rewrite Hs1; lia | split; [rewrite Hs2; lia |]].
  split; [congruence | split; [congruence |]].
  split; [intros i; split; [apply Hmu1 | apply Hmu2] |].
  intros i j Hi Hj. rewrite (HS1 i j Hi Hj), (HS2 i j Hi Hj). split; reflexivity.
Qed.

Lemma X9_construction_ignores_fresh_storage_witness :
  (0 <= 1)%Z /\ (3 + 2 * 1 < 2 ^ 31)%Z /\
  exists st1 st2,
    Slam_new loud_world 1 sample_Q Zero3 = Ok st1 /\
    Slam_new other_world 1 sample_Q Zero3 = Ok st2 /\
    state_size st1 = (3 + 2 * 1)%Z /\ state_size st2 = (3 + 2 * 1)%Z /\
    rows (sigma st1) = rows (sigma st2) /\ cols (sigma st1) = cols (sigma st2) /\
    (forall i, mu_at st1 i = 0 /\ mu_at st2 i = 0) /\
    forall i j, (i < Z.to_nat (3 + 2 * 1))%nat -> (j < Z.to_nat (3 + 2 * 1))%nat ->
      sigma_at st1 i j = sigma_at st2 i j /\
      sigma_at st1 i j = if ((3 <=? i)%nat && (i =? j)%nat) then 10000 else 0.
Proof.
  split; [lia |]. split; [lia |].
  apply (X9_construction_ignores_fresh_storage loud_world other_world 1
           sample_Q Zero3); lia.
Defined.

(** X10.  A negative landmark count never yields an estimator: for
    L <= -2 the state size is negative and [resize] fails, for L = -1 the
    1x1 covariance has no 3x3 top-left corner; either way an Eigen size
    check fails. *)
Theorem X10_negative_landmark_count (w : World) (L : Z) (Q Rn : Matrix3d) :
  (- 2 ^ 30 <= L < 0)%Z -> Slam_new w L Q Rn = Err EigenAssert.
Proof.
  intros [Hlo Hneg]. unfold Slam_new.
  rewrite !int_ok_true by lia. cbn [andb require bind].
  destruct (Z_lt_le_dec (3 + 2 * L) 0) as [Hn | Hn].
  - unfold resize at 1.
    rewrite (proj2 (Z.leb_gt 0 (3 + 2 * L)) Hn). reflexivity.
  - rewrite !resize_ok by lia. cbn [bind rows cols].
    unfold set_block_zero at 1, block_ok. cbn [rows cols].
    assert (H3 : (0 <=? Z.of_nat (Z.to_nat (3 + 2 * L)) - 3)%Z = false)
      by (apply Z.leb_gt; lia).
    rewrite H3. reflexivity.
Qed.

Lemma X10_negative_landmark_count_witness :
  (- 2 ^ 30 <= -1 < 0)%Z /\ Slam_new loud_world (-1) sample_Q Zero3 = Err EigenAssert.
Proof.
  split; [lia |].
  apply (X10_negative_landmark_count loud_world (-1) sample_Q Zero3). lia.
Defined.

(** ** The Cholesky factor and the noise *)

Lemma llt_inplace_positive (a : Matrix3d) :
  let l00 := sqrt (m00 a) in
  let l10 := m10 a / l00 in
  let l20 := m20 a / l00 in
  let x1 := m11 a - l10 * l10 in
  let l11 := sqrt x1 in
  let l21 := (m21 a - l20 * l10) / l11 in
  let x2 := m22 a - (l20 * l20 + l21 * l21) in
  0 < m00 a -> 0 < x1 -> 0 < x2 ->
  llt_inplace a = mkMatrix3d l00 (m01 a) (m02 a) l10 l11 (m12 a) l20 l21 (sqrt x2).
Proof.
  cbv zeta. intros H0 H1 H2. unfold llt_inplace.
  destruct (Rle_dec (m00 a) 0) as [C | _]; [lra |].
  match goal with |- context [Rle_dec ?x 0] => destruct (Rle_dec x 0) as [C | _]; [lra |] end.
  match goal with |- context [Rle_dec ?x 0] => destruct (Rle_dec x 0) as [C | _]; [lra |] end.
  reflexivity.
Qed.

(** X11.  For a symmetric Q whose leading principal minors are positive
    (Q positive definite) the factor l used by [getStateNoise] is a genuine
    Cholesky factor: lower triangular with l * l^T = Q. *)
Theorem X11_cholesky_factor_reproduces_Q (Q : Matrix3d) :
  symmetric3 Q -> 0 < m00 Q -> 0 < minor2 Q -> 0 < det3 Q ->
  let l := llt_matrixL Q in
  m01 l = 0 /\ m02 l = 0 /\ m12 l = 0 /\
  0 < m00 l /\ 0 < m11 l /\ 0 < m22 l /\
  gram3 l = Q.
Proof.
  intros (S01 & S02 & S12) H0 H2 H3. cbv zeta.
  set (s0 := sqrt (m00 Q)).
  assert (Hs0 : 0 < s0) by (apply sqrt_lt_R0; assumption).
  assert (Es0 : s0 * s0 = m00 Q) by (apply sqrt_sqrt; lra).
  set (l10 := m10 Q / s0). set (l20 := m20 Q / s0).
  assert (E10 : l10 * l10 = m10 Q * m10 Q / m00 Q).
  { unfold l10. rewrite <- Es0. field. lra. }
  assert (E1020 : l20 * l10 = m20 Q * m10 Q / m00 Q).
  { unfold l10, l20. rewrite <- Es0. field. lra. }
  assert (E20 : l20 * l20 = m20 Q * m20 Q / m00 Q).
  { unfold l20. rewrite <- Es0. field. lra. }
  set (x1 := m11 Q - l10 * l10).
  assert (Ex1 : x1 = minor2 Q / m00 Q).
  { unfold x1, minor2. rewrite E10. field. lra. }
  assert (Hx1 : 0 < x1).
  { rewrite Ex1. apply Rdiv_lt_0_compat; assumption. }
  set (s1 := sqrt x1).
  assert (Hs1 : 0 < s1) by (apply sqrt_lt_R0; assumption).
  assert (Es1 : s1 * s1 = x1) by (apply sqrt_sqrt; lra).
  set (l21 := (m21 Q - l20 * l10) / s1).
  assert (E21 : l21 * l21 = (m21 Q - l20 * l10) * (m21 Q - l20 * l10) / x1).
  { unfold l21. rewrite <- Es1. field. lra. }
  set (x2 := m22 Q - (l20 * l20 + l21 * l21)).
  assert (Ex2 : x2 = det3 Q / minor2 Q).
  { unfold x2. rewrite E21, E20, E1020, Ex1. unfold det3, minor2. field.
    unfold minor2 in H2. split; lra. }
  assert (Hx2 : 0 < x2).
  { rewrite Ex2. apply Rdiv_lt_0_compat; assumption. }
  set (s2 := sqrt x2).
  assert (Hs2 : 0 < s2) by (apply sqrt_lt_R0; assumption).
  assert (Es2 : s2 * s2 = x2) by (apply sqrt_sqrt; lra).
  unfold llt_matrixL.
  rewrite (llt_inplace_positive Q H0 Hx1 Hx2).
  fold s0 l10 l20 x1 s1 l21 x2 s2. unfold lower, gram3. cbn.
  repeat split; try assumption.
  destruct Q as [q00 q01 q02 q10 q11 q12 q20 q21 q22]. cbn in *. subst q01 q02 q12.
  assert (A01 : s0 * l10 = q10) by (unfold l10; field; lra).
  assert (A02 : s0 * l20 = q20) by (unfold l20; field; lra).
  assert (A12 : s1 * l21 = q21 - l20 * l10) by (unfold l21; field; lra).
  unfold x1 in Es1. unfold x2 in Es2.
  f_equal; try lra; nra.
Qed.

Lemma X11_cholesky_factor_reproduces_Q_witness :
  symmetric3 sample_Q /\ 0 < m00 sample_Q /\ 0 < minor2 sample_Q /\
  0 < det3 sample_Q /\
  let l := llt_matrixL sample_Q in
  m01 l = 0 /\ m02 l = 0 /\ m12 l = 0 /\
  0 < m00 l /\ 0 < m11 l /\ 0 < m22 l /\
  gram3 l = sample_Q.
Proof.
  assert (Hs : symmetric3 sample_Q) by (repeat split).
  assert (H0 : 0 < m00 sample_Q) by (cbn; lra).
  assert (H2 : 0 < minor2 sample_Q) by (unfold minor2; cbn; lra).
  assert (H3 : 0 < det3 sample_Q) by (unfold det3; cbn; lra).
  split; [exact Hs |]. split; [exact H0 |]. split; [exact H2 |]. split; [exact H3 |].
  exact (X11_cholesky_factor_reproduces_Q sample_Q Hs H0 H2 H3).
Defined.

(** X12.  A failed factorisation is silent.  When Q(0,0) <= 0 the
    factorisation stops at the first pivot, [getStateNoise] goes on with the
    lower triangle of Q itself as its factor, and no error is raised; for
    Q(0,0) < 0 that factor does not reproduce Q. *)
Theorem X12_failed_factorisation_is_silent (st : Slam) (w : World) :
  m00 (Qnoise st) <= 0 ->
  llt_matrixL (Qnoise st) = lower (Qnoise st) /\
  (let Q := Qnoise st in
   let s0 := normal_draws w (drawn w) in
   let s1 := normal_draws w (S (drawn w)) in
   let s2 := normal_draws w (S (S (drawn w))) in
   fst (getStateNoise st w) =
   mkVector3d (m00 Q * s0 + 0 * s1 + 0 * s2)
              (m10 Q * s0 + m11 Q * s1 + 0 * s2)
              (m20 Q * s0 + m21 Q * s1 + m22 Q * s2)) /\
  (m00 (Qnoise st) < 0 -> gram3 (llt_matrixL (Qnoise st)) <> Qnoise st).
Proof.
  intros Hneg.
  assert (HL : llt_matrixL (Qnoise st) = lower (Qnoise st)).
  { unfold llt_matrixL, llt_inplace.
    destruct (Rle_dec (m00 (Qnoise st)) 0) as [_ | N]; [reflexivity | contradiction]. }
  split; [exact HL |]. split.
  - cbv zeta. unfold getStateNoise. rewrite HL. reflexivity.
  - intros Hlt HG. rewrite HL in HG.
    assert (E : m00 (gram3 (lower (Qnoise st))) = m00 (Qnoise st)) by (rewrite HG; reflexivity).
    unfold gram3, lower in E. cbn in E. nra.
Qed.

Lemma X12_failed_factorisation_is_silent_witness :
  let st := mkSlam negative_R Zero3 3 (mkMatrix 3 1 (fun _ _ => 0))
              (mkMatrix 3 3 (fun _ _ => 0)) in
  m00 (Qnoise st) <= 0 /\
  llt_matrixL (Qnoise st) = lower (Qnoise st) /\
  (let Q := Qnoise st in
   let s0 := normal_draws loud_world (drawn loud_world) in
   let s1 := normal_draws loud_world (S (drawn loud_world)) in
   let s2 := normal_draws loud_world (S (S (drawn loud_world))) in
   fst (getStateNoise st loud_world) =
   mkVector3d (m00 Q * s0 + 0 * s1 + 0 * s2)
              (m10 Q * s0 + m11 Q * s1 + 0 * s2)
              (m20 Q * s0 + m21 Q * s1 + m22 Q * s2)) /\
  (m00 (Qnoise st) < 0 -> gram3 (llt_matrixL (Qnoise st)) <> Qnoise st).
Proof.
  cbv zeta.
  assert (H : m00 (Qnoise (mkSlam negative_R Zero3 3 (mkMatrix 3 1 (fun _ _ => 0))
                             (mkMatrix 3 3 (fun _ _ => 0)))) <= 0) by (cbn; lra).
  split; [exact H |].
  exact (X12_failed_factorisation_is_silent
           (mkSlam negative_R Zero3 3 (mkMatrix 3 1 (fun _ _ => 0))
              (mkMatrix 3 3 (fun _ _ => 0))) loud_world H).
Defined.

(** X13.  A prediction reads the random source at exactly three positions:
    two random sources that agree on the next three draws lead to the same
    estimator, wherever they stand and whatever else they hold. *)
Theorem X13_prediction_reads_three_draws (st : Slam) (n : nat) (tw : Twist2D)
    (w1 w2 : World) :
  sized st n ->
  (forall k, (k < 3)%nat ->
     normal_draws w1 (drawn w1 + k) = normal_draws w2 (drawn w2 + k)) ->
  exists st' w1' w2',
    MotionModelUpdate st w1 tw = Ok (st', w1') /\
    MotionModelUpdate st w2 tw = Ok (st', w2') /\
    drawn w1' = (drawn w1 + 3)%nat /\ drawn w2' = (drawn w2 + 3)%nat.
Proof.
  intros Hsz Hd.
  assert (HN : fst (getStateNoise st w1) = fst (getStateNoise st w2)).
  { unfold getStateNoise, sampleNormalDistribution. cbn [fst normal_draws drawn].
    pose proof (Hd 0%nat ltac:(lia)) as D0.
    pose proof (Hd 1%nat ltac:(lia)) as D1.
    pose proof (Hd 2%nat ltac:(lia)) as D2.
    rewrite !Nat.add_0_r in D0. rewrite !Nat.add_1_r in D1.
    replace (drawn w1 + 2)%nat with (S (S (drawn w1))) in D2 by lia.
    replace (drawn w2 + 2)%nat with (S (S (drawn w2))) in D2 by lia.
    rewrite D0, D1, D2. reflexivity. }
  eexists _, _, _.
  rewrite !(MotionModelUpdate_sized st n) by assumption. rewrite HN.
  split; [reflexivity | split; [reflexivity |]].
  rewrite !getStateNoise_drawn. cbn [drawn]. split; lia.
Qed.

Lemma X13_prediction_reads_three_draws_witness :
  let wa := mkWorld (fun k => if (k <? 3)%nat then 1 else 2) 0 (fun _ _ => 0) in
  let wb := mkWorld (fun k => if (k <? 8)%nat then 1 else 5) 5 (fun _ _ => 7) in
  sized origin_state 3 /\
  (forall k, (k < 3)%nat ->
     normal_draws wa (drawn wa + k) = normal_draws wb (drawn wb + k)) /\
  exists st' w1' w2',
    MotionModelUpdate origin_state wa arc = Ok (st', w1') /\
    MotionModelUpdate origin_state wb arc = Ok (st', w2') /\
    drawn w1' = (drawn wa + 3)%nat /\ drawn w2' = (drawn wb + 3)%nat.
Proof.
  cbv zeta.
  assert (Hd : forall k, (k < 3)%nat ->
     normal_draws (mkWorld (fun k => if (k <? 3)%nat then 1 else 2) 0 (fun _ _ => 0))
       (drawn (mkWorld (fun k => if (k <? 3)%nat then 1 else 2) 0 (fun _ _ => 0)) + k) =
     normal_draws (mkWorld (fun k => if (k <? 8)%nat then 1 else 5) 5 (fun _ _ => 7))
       (drawn (mkWorld (fun k => if (k <? 8)%nat then 1 else 5) 5 (fun _ _ => 7)) + k)).
  { intros k Hk. cbn [normal_draws drawn].
    destruct k as [| [| [| k]]]; try lia; reflexivity. }
  split; [prove_sized |]. split; [exact Hd |].
  apply (X13_prediction_reads_three_draws origin_state 3 arc
           (mkWorld (fun k => if (k <? 3)%nat then 1 else 2) 0 (fun _ _ => 0))
           (mkWorld (fun k => if (k <? 8)%nat then 1 else 5) 5 (fun _ _ => 7))).
  - prove_sized.
  - exact Hd.
Defined.

(** ** Geometry of the motion model *)

(** X14.  On the turning branch the planar displacement has the length of
    the chord of the commanded arc: dx^2 + dy^2 = 2 k^2 (1 - cos omega) with
    k = vx / omega, whatever the heading is; the heading increment is
    omega. *)
Theorem X14_turning_displacement_is_chord (tw : Twist2D) (th : R) :
  wz tw <> 0 ->
  let u := increment tw th in
  v0 u = wz tw /\
  v1 u * v1 u + v2 u * v2 u =
  2 * (vel_ratio tw * vel_ratio tw) * (1 - cos (wz tw)).
Proof.
  intros N. cbv zeta. destruct (increment_turning tw th N) as [E _]. rewrite E.
  cbn [v0 v1 v2]. split; [reflexivity |].
  rewrite sin_plus, cos_plus.
  pose proof (sin2_cos2 th) as Ht. pose proof (sin2_cos2 (wz tw)) as Hw.
  unfold Rsqr in Ht, Hw.
  set (k := vel_ratio tw) in *. set (s := sin th) in *. set (c := cos th) in *.
  set (sw := sin (wz tw)) in *. set (cw := cos (wz tw)) in *.
  transitivity (k * k * ((s * s + c * c) * ((cw - 1) * (cw - 1) + sw * sw))); [ring |].
  rewrite Ht.
  transitivity (k * k * ((sw * sw + cw * cw) + 1 - 2 * cw)); [ring |].
  rewrite Hw. ring.
Qed.

Lemma X14_turning_displacement_is_chord_witness :
  wz arc <> 0 /\
  let u := increment arc (PI / 2) in
  v0 u = wz arc /\
  v1 u * v1 u + v2 u * v2 u =
  2 * (vel_ratio arc * vel_ratio arc) * (1 - cos (wz arc)).
Proof.
  assert (N : wz arc <> 0) by (cbn; lra).
  split; [exact N |].
  exact (X14_turning_displacement_is_chord arc (PI / 2) N).
Defined.

Lemma derivable_pt_lim_pointwise (f g : R -> R) (x l : R) :
  (forall t, f t = g t) -> derivable_pt_lim g x l -> derivable_pt_lim f x l.
Proof.
  intros H Hg eps Heps. destruct (Hg eps Heps) as [delta Hd].
  exists delta. intros h Hh Hlt. rewrite !H. apply Hd; assumption.
Qed.

Lemma d_scaled_sin_shift (k w th : R) :
  derivable_pt_lim (fun t => k * sin (t + w)) th (k * cos (th + w)).
Proof.
  apply (derivable_pt_lim_scal (fun t => sin (t + w)) k th (cos (th + w))).
  replace (cos (th + w)) with (cos (th + w) * (1 + 0)) by ring.
  apply (derivable_pt_lim_comp (fun t => t + w) sin th (1 + 0) (cos (th + w))).
  - apply (derivable_pt_lim_plus id (fun _ => w) th 1 0).
    + apply derivable_pt_lim_id.
    + apply derivable_pt_lim_const.
  - apply derivable_pt_lim_sin.
Qed.

Lemma d_scaled_cos_shift (k w th : R) :
  derivable_pt_lim (fun t => k * cos (t + w)) th (k * - sin (th + w)).
Proof.
  apply (derivable_pt_lim_scal (fun t => cos (t + w)) k th (- sin (th + w))).
  replace (- sin (th + w)) with (- sin (th + w) * (1 + 0)) by ring.
  apply (derivable_pt_lim_comp (fun t => t + w) cos th (1 + 0) (- sin (th + w))).
  - apply (derivable_pt_lim_plus id (fun _ => w) th 1 0).
    + apply derivable_pt_lim_id.
    + apply derivable_pt_lim_const.
  - apply derivable_pt_lim_cos.
Qed.

Lemma d_scaled_sin (k th : R) :
  derivable_pt_lim (fun t => k * sin t) th (k * cos th).
Proof.
  apply (derivable_pt_lim_scal sin k th (cos th)). apply derivable_pt_lim_sin.
Qed.

Lemma d_scaled_cos (k th : R) :
  derivable_pt_lim (fun t => k * cos t) th (k * - sin th).
Proof.
  apply (derivable_pt_lim_scal cos k th (- sin th)). apply derivable_pt_lim_cos.
Qed.

(** X15.  The column that enters Gt is the derivative of the pose increment
    with respect to the heading: on the turning branch for all three
    components, on the straight branch for the heading and x components.
    On the straight branch the y increment vy * sin(theta) has derivative
    vy * cos(theta). *)
Theorem X15_jacobian_column_is_derivative (tw : Twist2D) (th : R) :
  derivable_pt_lim (fun t => v0 (increment tw t)) th (v0 (increment_jacobian tw th)) /\
  derivable_pt_lim (fun t => v1 (increment tw t)) th (v1 (increment_jacobian tw th)) /\
  (wz tw <> 0 ->
   derivable_pt_lim (fun t => v2 (increment tw t)) th (v2 (increment_jacobian tw th))) /\
  (wz tw = 0 ->
   derivable_pt_lim (fun t => v2 (increment tw t)) th (vy tw * cos th)).
Proof.
  destruct (Req_dec_T (wz tw) 0) as [E | N].
  - assert (HI : forall t, increment tw t =
                   mkVector3d 0 (vx tw * cos t) (vy tw * sin t))
      by (intros; apply increment_translation; assumption).
    assert (HJ : increment_jacobian tw th =
                 mkVector3d 0 (- vx tw * sin th) (vx tw * cos th)).
    { unfold increment_jacobian.
      destruct (Req_dec_T (wz tw) 0); [reflexivity | contradiction]. }
    rewrite HJ. cbn [v0 v1 v2].
    split; [| split; [| split]].
    + apply (derivable_pt_lim_pointwise _ (fct_cte 0)).
      * intros t. rewrite HI. reflexivity.
      * apply derivable_pt_lim_const.
    + apply (derivable_pt_lim_pointwise _ (fun t => vx tw * cos t)).
      * intros t. rewrite HI. reflexivity.
      * replace (- vx tw * sin th) with (vx tw * - sin th) by ring.
        apply d_scaled_cos.
    + intros C. contradiction.
    + intros _. apply (derivable_pt_lim_pointwise _ (fun t => vy tw * sin t)).
      * intros t. rewrite HI. reflexivity.
      * apply d_scaled_sin.
  - assert (HI : forall t, increment tw t =
                   mkVector3d (wz tw)
                     (- vel_ratio tw * sin t + vel_ratio tw * sin (t + wz tw))
                     (vel_ratio tw * cos t - vel_ratio tw * cos (t + wz tw)))
      by (intros; apply increment_turning; assumption).
    destruct (increment_turning tw th N) as [_ HJ]. rewrite HJ. cbn [v0 v1 v2].
    set (k := vel_ratio tw) in *.
    split; [| split; [| split]].
    + apply (derivable_pt_lim_pointwise _ (fct_cte (wz tw))).
      * intros t. rewrite HI. reflexivity.
      * apply derivable_pt_lim_const.
    + apply (derivable_pt_lim_pointwise _
               (plus_fct (fun t => - k * sin t) (fun t => k * sin (t + wz tw)))).
      * intros t. rewrite HI. reflexivity.
      * apply derivable_pt_lim_plus; [apply d_scaled_sin | apply d_scaled_sin_shift].
    + intros _.
      apply (derivable_pt_lim_pointwise _
               (minus_fct (fun t => k * cos t) (fun t => k * cos (t + wz tw)))).
      * intros t. rewrite HI. reflexivity.
      * replace (- k * sin th + k * sin (th + wz tw))
          with (k * - sin th - k * - sin (th + wz tw)) by ring.
        apply derivable_pt_lim_minus; [apply d_scaled_cos | apply d_scaled_cos_shift].
    + intros C. contradiction.
Qed.

Lemma X15_jacobian_column_is_derivative_witness :
  wz arc <> 0 /\ wz forward = 0 /\
  derivable_pt_lim (fun t => v2 (increment arc t)) 1 (v2 (increment_jacobian arc 1)) /\
  derivable_pt_lim (fun t => v2 (increment forward t)) 1 (vy forward * cos 1).
Proof.
  assert (N : wz arc <> 0) by (cbn; lra).
  split; [exact N |]. split; [reflexivity |]. split.
  - exact (proj1 (proj2 (proj2 (X15_jacobian_column_is_derivative arc 1))) N).
  - exact (proj2 (proj2 (proj2 (X15_jacobian_column_is_derivative forward 1))) eq_refl).
Defined.

Lemma getRobotState_sized (st : Slam) (n : nat) :
  sized st n -> getRobotState st = Ok [mu_at st 0; mu_at st 1; mu_at st 2].
Proof.
  intros (Hn & _ & Hr & Hc & _). unfold getRobotState.
  rewrite !at1_ok by lia. reflexivity.
Qed.

(** X16.  Construction, one prediction and the pose read-out compose as
    follows when Q = 0.  A turning twist (omega <> 0) gives the pose
    [omega, k sin(omega), k (1 - cos(omega))] with k = vx / omega; a straight
    twist (omega = 0) gives [0, vx, 0], whatever vy is. *)
Theorem X16_first_prediction_readout (w : World) (L : Z) (Rn : Matrix3d)
    (tw : Twist2D) :
  (0 <= L)%Z -> (3 + 2 * L < 2 ^ 31)%Z ->
  exists st0 st1 w1,
    Slam_new w L Zero3 Rn = Ok st0 /\
    getRobotState st0 = Ok [0; 0; 0] /\
    MotionModelUpdate st0 w tw = Ok (st1, w1) /\
    (wz tw <> 0 ->
     getRobotState st1 =
     Ok [wz tw; vel_ratio tw * sin (wz tw); vel_ratio tw * (1 - cos (wz tw))]) /\
    (wz tw = 0 -> getRobotState st1 = Ok [0; vx tw; 0]).
Proof.
  intros HL Hmax.
  destruct (Slam_new_spec w L Zero3 Rn HL Hmax)
    as (st0 & H0 & Hsz & HQ & _ & Hmu & _).
  set (n := Z.to_nat (3 + 2 * L)) in *.
  set (st1 := predicted st0 n (increment tw (mu_at st0 0))
                (increment_jacobian tw (mu_at st0 0)) (fst (getStateNoise st0 w))).
  exists st0, st1, (snd (getStateNoise st0 w)).
  split; [exact H0 |].
  split; [rewrite (getRobotState_sized st0 n Hsz), !Hmu; reflexivity |].
  split; [apply (MotionModelUpdate_sized st0 n w tw Hsz) |].
  assert (Hsz1 : sized st1 n) by (apply predicted_sized; assumption).
  rewrite (getRobotState_sized st1 n Hsz1).
  unfold st1. rewrite predicted_mu0, predicted_mu1, predicted_mu2.
  rewrite (getStateNoise_zero_Q st0 w HQ), !Hmu. cbn [v0 v1 v2 Zero3v].
  assert (Hlist : forall a b c a' b' c' : R, a = a' -> b = b' -> c = c' ->
            @Ok (list R) [a; b; c] = Ok [a'; b'; c'])
    by (intros; subst; reflexivity).
  split.
  - intros N. destruct (increment_turning tw 0 N) as [E _]. rewrite E.
    cbn [v0 v1 v2]. rewrite !Rplus_0_l, sin_0, cos_0.
    apply Hlist; ring.
  - intros E. rewrite (increment_translation tw 0 E). cbn [v0 v1 v2].
    rewrite sin_0, cos_0.
    apply Hlist; ring.
Qed.

Lemma X16_first_prediction_readout_witness :
  (0 <= 1)%Z /\ (3 + 2 * 1 < 2 ^ 31)%Z /\ wz arc <> 0 /\
  exists st0 st1 w1,
    Slam_new loud_world 1 Zero3 sample_Q = Ok st0 /\
    getRobotState st0 = Ok [0; 0; 0] /\
    MotionModelUpdate st0 loud_world arc = Ok (st1, w1) /\
    (wz arc <> 0 ->
     getRobotState st1 =
     Ok [wz arc; vel_ratio arc * sin (wz arc); vel_ratio arc * (1 - cos (wz arc))]) /\
    (wz arc = 0 -> getRobotState st1 = Ok [0; vx arc; 0]).
Proof.
  split; [lia |]. split; [lia |]. split; [cbn; lra |].
  apply (X16_first_prediction_readout loud_world 1 sample_Q arc); lia.
Defined.

(** ** The measurement side *)

Lemma getMeasurementNoise_drawn (st : Slam) (w : World) :
  snd (getMeasurementNoise st w) =
  mkWorld (normal_draws w) (S (S (drawn w))) (fresh w).
Proof. reflexivity. Qed.

Lemma sensor_value_noise (st : Slam) (x y : R) (a b : Vector3d) :
  v0 a = v0 b -> v1 a = v1 b -> sensor_value st x y a = sensor_value st x y b.
Proof.
  intros H0 H1. unfold sensor_value. rewrite H0, H1. reflexivity.
Qed.

(** X17.  With R = 0, an observation that coincides with the current
    estimate of its landmark has zero innovation in range and in bearing;
    forming the two measurements takes exactly two draws. *)
Theorem X17_zero_innovation (st : Slam) (n : nat) (w : World) (c : Point) (i : nat) :
  sized st n -> (3 + 2 * i + 1 < n)%nat -> Rnoise st = Zero3 ->
  px c = mu_at st (3 + 2 * i) -> py c = mu_at st (3 + 2 * i + 1) ->
  exists z_expected z_actual w',
    measurements st w c (3 + 2 * i) = Ok (z_expected, z_actual, w') /\
    innovation z_actual z_expected = mkVector2d 0 0 /\
    drawn w' = (drawn w + 2)%nat.
Proof.
  intros Hsz Hi HR Hx Hy. eexists _, _, _.
  split; [apply (measurements_sized st n w c i Hsz Hi) |].
  destruct (getMeasurementNoise_zero_R st w HR) as [N0 N1].
  split.
  - rewrite Hx, Hy.
    rewrite (sensor_value_noise st _ _ (fst (getMeasurementNoise st w)) Zero3v)
      by assumption.
    unfold innovation, sub2. f_equal; ring.
  - rewrite getMeasurementNoise_drawn. cbn [drawn]. lia.
Qed.

Lemma X17_zero_innovation_witness :
  sized one_landmark_state 5 /\ (3 + 2 * 0 + 1 < 5)%nat /\
  Rnoise one_landmark_state = Zero3 /\
  px (mkPoint 0 0 0) = mu_at one_landmark_state (3 + 2 * 0) /\
  py (mkPoint 0 0 0) = mu_at one_landmark_state (3 + 2 * 0 + 1) /\
  exists z_expected z_actual w',
    measurements one_landmark_state loud_world (mkPoint 0 0 0) (3 + 2 * 0)
      = Ok (z_expected, z_actual, w') /\
    innovation z_actual z_expected = mkVector2d 0 0 /\
    drawn w' = (drawn loud_world + 2)%nat.
Proof.
  split; [prove_sized |]. split; [cbn; lia |]. split; [reflexivity |].
  split; [reflexivity |]. split; [reflexivity |].
  apply (X17_zero_innovation one_landmark_state 5 loud_world (mkPoint 0 0 0) 0).
  - prove_sized.
  - cbn; lia.
  - reflexivity.
  - reflexivity.
  - reflexivity.
Defined.

(** X18.  An observation whose index has no landmark slot in the state
    (index i with 3 + 2i + 1 >= state size, e.g. a batch longer than the
    landmark count) fails the index check on [prev_state]; nothing is
    returned for the batch. *)
Theorem X18_observation_beyond_landmarks (st : Slam) (n : nat) (w : World)
    (c : Point) (cs : list Point) (rs : list R) (i : nat) :
  sized st n -> (n <= 3 + 2 * i + 1)%nat -> (i < length rs)%nat ->
  update_from (c :: cs) rs i st w = Err EigenAssert.
Proof.
  intros (Hn & _ & Hr & Hc & _) Hi Hlen. cbn [update_from].
  destruct (vector_at_ok rs i Hlen) as [r Er]. rewrite Er. cbn [bind].
  unfold update_observation, measurements.
  destruct (getMeasurementNoise st w) as [noise w'].
  destruct (Nat.lt_ge_cases (3 + 2 * i) n) as [Hin | Hout].
  - rewrite (at1_ok _ (3 + 2 * i)) by lia. cbn [bind].
    rewrite at1_out by lia. reflexivity.
  - rewrite at1_out by lia. reflexivity.
Qed.

Lemma X18_observation_beyond_landmarks_witness :
  sized origin_state 3 /\ (3 <= 3 + 2 * 0 + 1)%nat /\ (0 < length [1])%nat /\
  update_from [side_observation] [1] 0 origin_state loud_world = Err EigenAssert.
Proof.
  split; [prove_sized |]. split; [cbn; lia |]. split; [cbn; lia |].
  apply (X18_observation_beyond_landmarks origin_state 3 loud_world
           side_observation [] [1] 0).
  - prove_sized.
  - cbn; lia.
  - cbn; lia.
Defined.

(** X19.  When [radii] is shorter than [centers], the iteration that runs
    out of radii throws [out_of_range] before it draws noise or reads the
    state; in particular a non-empty batch without radii fails at once, on
    any estimator. *)
Theorem X19_missing_radius (st : Slam) (w : World) (c : Point)
    (cs : list Point) (rs : list R) (i : nat) :
  (length rs <= i)%nat ->
  update_from (c :: cs) rs i st w = Err OutOfRange /\
  MeasurmentModelUpdate st w (mkTurtleMap (c :: cs) []) = Err OutOfRange.
Proof.
  intros Hlen. split.
  - cbn [update_from]. rewrite vector_at_out by assumption. reflexivity.
  - reflexivity.
Qed.

Lemma X19_missing_radius_witness :
  (length [1] <= 1)%nat /\
  update_from [side_observation] [1] 1 one_landmark_state loud_world = Err OutOfRange /\
  MeasurmentModelUpdate one_landmark_state loud_world
    (mkTurtleMap [side_observation] []) = Err OutOfRange.
Proof.
  split; [cbn; lia |].
  apply (X19_missing_radius one_landmark_state loud_world side_observation [] [1] 1).
  cbn; lia.
Defined.

(** X20.  [getHMatrix] never returns a Jacobian on a well-sized estimator.
    For d <= 0 the first division has a zero (or, in C, NaN) divisor; for
    d > 0 the four blocks have state_size + 2 columns, two more than [Hi],
    and the comma initialiser rejects them, whatever the landmark id is. *)
Theorem X20_getHMatrix_never_assembles (st : Slam) (n : nat) (w : World)
    (x y d : R) (id : Z) :
  sized st n ->
  (d <= 0 -> getHMatrix st w x y d id = Err NotFinite) /\
  (0 < d -> getHMatrix st w x y d id = Err EigenAssert).
Proof.
  intros Hsz. split.
  - intros Hd. pose proof Hsz as (_ & Hs & _).
    unfold getHMatrix. rewrite resize_ok by lia. cbn [bind].
    unfold getHMatrix_pt1. rewrite (sqrt_neg_0 d Hd), fdiv_zero. reflexivity.
  - intros Hd. apply (getHMatrix_too_many_columns st n); [assumption | lra |].
    pose proof (sqrt_lt_R0 d Hd). lra.
Qed.

Lemma X20_getHMatrix_never_assembles_witness :
  sized one_landmark_state 5 /\ 0 < 2 /\
  getHMatrix one_landmark_state loud_world 1 1 2 0 = Err EigenAssert.
Proof.
  split; [prove_sized |]. split; [lra |].
  apply (proj2 (X20_getHMatrix_never_assembles one_landmark_state 5 loud_world
                  1 1 2 0%Z ltac:(prove_sized))).
  lra.
Defined.

(** X21.  The measurement update on a well-sized estimator: an empty batch
    returns the estimator and the random source untouched; a non-empty
    batch never completes, whatever the observations and radii are. *)
Theorem X21_update_empty_or_failing (st : Slam) (n : nat) (w : World)
    (rs : list R) :
  sized st n ->
  MeasurmentModelUpdate st w (mkTurtleMap [] rs) = Ok (st, w) /\
  forall c cs, exists e,
    MeasurmentModelUpdate st w (mkTurtleMap (c :: cs) rs) = Err e.
Proof.
  intros Hsz. split; [reflexivity |].
  intros c cs. unfold MeasurmentModelUpdate. cbn [centers radii update_from].
  destruct rs as [| r rs]; cbn [vector_at nth_error bind].
  - exists OutOfRange. reflexivity.
  - destruct (update_observation_never_completes st n w 0 c r Hsz) as [e He].
    exists e. rewrite He. reflexivity.
Qed.

Lemma X21_update_empty_or_failing_witness :
  sized one_landmark_state 5 /\
  MeasurmentModelUpdate one_landmark_state loud_world (mkTurtleMap [] [1; 2])
    = Ok (one_landmark_state, loud_world) /\
  forall c cs, exists e,
    MeasurmentModelUpdate one_landmark_state loud_world (mkTurtleMap (c :: cs) [1; 2])
      = Err e.
Proof.
  split; [prove_sized |].
  apply (X21_update_empty_or_failing one_landmark_state 5 loud_world [1; 2]).
  prove_sized.
Defined.

(** X22.  The sensor model on a well-sized estimator always returns a
    measurement: the bearing lies in (-pi, pi], the range is the distance to
    the estimated robot position plus the first noise entry, and without
    noise it is zero exactly for the robot position itself. *)
Theorem X22_sensor_model_output (st : Slam) (n : nat) (x y : R) (noise : Vector3d) :
  sized st n ->
  exists z,
    sensorModel st x y noise = Ok z /\
    in_half_open_turn (z1 z) /\
    v0 noise <= z0 z /\
    (z0 z - v0 noise) * (z0 z - v0 noise) =
      (x - mu_at st 1) * (x - mu_at st 1) + (y - mu_at st 2) * (y - mu_at st 2) /\
    (z0 z = v0 noise <-> x = mu_at st 1 /\ y = mu_at st 2).
Proof.
  intros Hsz. eexists. split; [apply (sensorModel_sized st n x y noise Hsz) |].
  unfold sensor_value. cbn [z0 z1].
  set (dx := x - mu_at st 1). set (dy := y - mu_at st 2).
  assert (Hd : 0 <= dx * dx + dy * dy) by nra.
  pose proof (sqrt_pos (dx * dx + dy * dy)) as Hp.
  pose proof (sqrt_sqrt _ Hd) as Hs.
  split; [apply normalize_angle_range |].
  split; [lra |].
  split; [replace (sqrt (dx * dx + dy * dy) + v0 noise - v0 noise)
            with (sqrt (dx * dx + dy * dy)) by ring; exact Hs |].
  split.
  - intros E. assert (E0 : sqrt (dx * dx + dy * dy) = 0) by lra.
    rewrite E0 in Hs.
    assert (Hxx : dx * dx = 0) by nra. assert (Hyy : dy * dy = 0) by nra.
    assert (Hx0 : dx = 0) by (destruct (Rmult_integral _ _ Hxx); assumption).
    assert (Hy0 : dy = 0) by (destruct (Rmult_integral _ _ Hyy); assumption).
    unfold dx in Hx0. unfold dy in Hy0. split; lra.
  - intros [Ex Ey]. unfold dx, dy. rewrite Ex, Ey.
    replace ((mu_at st 1 - mu_at st 1) * (mu_at st 1 - mu_at st 1)
             + (mu_at st 2 - mu_at st 2) * (mu_at st 2 - mu_at st 2)) with 0 by ring.
    rewrite sqrt_0. ring.
Qed.

Lemma X22_sensor_model_output_witness :
  sized one_landmark_state 5 /\
  exists z,
    sensorModel one_landmark_state 3 4 Zero3v = Ok z /\
    in_half_open_turn (z1 z) /\
    v0 Zero3v <= z0 z /\
    (z0 z - v0 Zero3v) * (z0 z - v0 Zero3v) =
      (3 - mu_at one_landmark_state 1) * (3 - mu_at one_landmark_state 1)
      + (4 - mu_at one_landmark_state 2) * (4 - mu_at one_landmark_state 2) /\
    (z0 z = v0 Zero3v <->
     3 = mu_at one_landmark_state 1 /\ 4 = mu_at one_landmark_state 2).
Proof.
  split; [prove_sized |].
  apply (X22_sensor_model_output one_landmark_state 5 3 4 Zero3v).
  prove_sized.
Defined.

(** ** The Jacobian blocks *)

(** X23.  For d = x^2 + y^2 > 0 both coefficient blocks of the Jacobian are
    formed.  The landmark block has a first row of unit length, a second
    row orthogonal to it of squared length 1/d; the pose block repeats it
    with the opposite sign in entries (0,1), (0,2) and (1,1) and with the
    same sign in entry (1,2). *)
Theorem X23_jacobian_blocks (x y : R) :
  0 < x * x + y * y ->
  exists P M,
    getHMatrix_pt1 x y (x * x + y * y) = Ok P /\
    getHMatrix_pt3 x y (x * x + y * y) = Ok M /\
    rows P = 2%nat /\ cols P = 3%nat /\ rows M = 2%nat /\ cols M = 2%nat /\
    coeff M 0 0 * coeff M 0 0 + coeff M 0 1 * coeff M 0 1 = 1 /\
    coeff M 0 0 * coeff M 1 0 + coeff M 0 1 * coeff M 1 1 = 0 /\
    coeff M 1 0 * coeff M 1 0 + coeff M 1 1 * coeff M 1 1 = 1 / (x * x + y * y) /\
    coeff P 0 0 = 0 /\ coeff P 1 0 = -1 /\
    coeff P 0 1 = - coeff M 0 0 /\ coeff P 0 2 = - coeff M 0 1 /\
    coeff P 1 1 = - coeff M 1 0 /\ coeff P 1 2 = coeff M 1 1.
Proof.
  intros Hd. set (d := x * x + y * y) in *.
  assert (Hs : 0 < sqrt d) by (apply sqrt_lt_R0; assumption).
  assert (Es : sqrt d * sqrt d = d) by (apply sqrt_sqrt; lra).
  eexists _, _.
  split; [apply getHMatrix_pt1_ok; lra |].
  split; [apply getHMatrix_pt3_ok; lra |].
  cbn [rows cols coeff].
  split; [reflexivity | split; [reflexivity | split; [reflexivity | split; [reflexivity |]]]].
  set (s := sqrt d) in *.
  split.
  { transitivity ((x * x + y * y) / (s * s)); [field; lra |].
    rewrite Es. unfold d. field. fold d. lra. }
  split; [field; lra |].
  split; [unfold d; field; fold d; lra |].
  repeat split; try reflexivity; field; lra.
Qed.

Lemma X23_jacobian_blocks_witness :
  0 < 3 * 3 + 4 * 4 /\
  exists P M,
    getHMatrix_pt1 3 4 (3 * 3 + 4 * 4) = Ok P /\
    getHMatrix_pt3 3 4 (3 * 3 + 4 * 4) = Ok M /\
    rows P = 2%nat /\ cols P = 3%nat /\ rows M = 2%nat /\ cols M = 2%nat /\
    coeff M 0 0 * coeff M 0 0 + coeff M 0 1 * coeff M 0 1 = 1 /\
    coeff M 0 0 * coeff M 1 0 + coeff M 0 1 * coeff M 1 1 = 0 /\
    coeff M 1 0 * coeff M 1 0 + coeff M 1 1 * coeff M 1 1 = 1 / (3 * 3 + 4 * 4) /\
    coeff P 0 0 = 0 /\ coeff P 1 0 = -1 /\
    coeff P 0 1 = - coeff M 0 0 /\ coeff P 0 2 = - coeff M 0 1 /\
    coeff P 1 1 = - coeff M 1 0 /\ coeff P 1 2 = coeff M 1 1.
Proof.
  split; [lra |].
  apply (X23_jacobian_blocks 3 4). lra.
Defined.

(** ** rigid2d.hpp *)

Lemma header_PI_pos : 0 < rigid2d_header.PI.
Proof.
  unfold rigid2d_header.PI. apply Rdiv_lt_0_compat; [lra | apply pow_lt; lra].
Qed.

(** X24.  Degrees and radians convert back and forth without loss (in exact
    arithmetic): each conversion undoes the other, 180 degrees are PI
    radians and PI radians are 180 degrees. *)
Theorem X24_degree_radian_round_trip (x : R) :
  rigid2d_header.deg2rad (rigid2d_header.rad2deg x) = x /\
  rigid2d_header.rad2deg (rigid2d_header.deg2rad x) = x /\
  rigid2d_header.deg2rad 180 = rigid2d_header.PI /\
  rigid2d_header.rad2deg rigid2d_header.PI = 180.
Proof.
  pose proof header_PI_pos as Hp.
  unfold rigid2d_header.deg2rad, rigid2d_header.rad2deg.
  repeat split; field; lra.
Qed.

Lemma almost_equal_true (d1 d2 epsilon : R) :
  rigid2d_header.almost_equal d1 d2 epsilon = true <-> Rabs (d1 - d2) < epsilon.
Proof.
  unfold rigid2d_header.almost_equal.
  destruct (Rlt_dec (Rabs (d1 - d2)) epsilon); split; intros H;
    try reflexivity; try assumption; [discriminate | contradiction].
Qed.

(** X25.  [almost_equal] is symmetric in its two numbers, holds between a
    number and itself for every positive tolerance, and never holds for a
    tolerance that is zero or negative.  Two approximate equalities chain at
    the sum of their tolerances, but not at one and the same tolerance:
    0 and 0.6, 0.6 and 1.2 are equal within 1, 0 and 1.2 are not. *)
Theorem X25_almost_equal_laws :
  (forall a b e, rigid2d_header.almost_equal a b e = rigid2d_header.almost_equal b a e) /\
  (forall a e, 0 < e -> rigid2d_header.almost_equal a a e = true) /\
  (forall a b e, e <= 0 -> rigid2d_header.almost_equal a b e = false) /\
  (forall a b c e1 e2,
      rigid2d_header.almost_equal a b e1 = true ->
      rigid2d_header.almost_equal b c e2 = true ->
      rigid2d_header.almost_equal a c (e1 + e2) = true) /\
  (rigid2d_header.almost_equal 0 (6 / 10) 1 = true /\
   rigid2d_header.almost_equal (6 / 10) (12 / 10) 1 = true /\
   rigid2d_header.almost_equal 0 (12 / 10) 1 = false).
Proof.
  split; [| split; [| split; [| split]]].
  - intros a b e. unfold rigid2d_header.almost_equal.
    rewrite (Rabs_minus_sym a b). reflexivity.
  - intros a e He. apply almost_equal_true.
    replace (a - a) with 0 by ring. rewrite Rabs_R0. exact He.
  - intros a b e He. unfold rigid2d_header.almost_equal.
    destruct (Rlt_dec (Rabs (a - b)) e) as [H | _]; [| reflexivity].
    pose proof (Rabs_pos (a - b)). lra.
  - intros a b c e1 e2 H1 H2.
    apply almost_equal_true in H1. apply almost_equal_true in H2.
    apply almost_equal_true.
    replace (a - c) with ((a - b) + (b - c)) by ring.
    pose proof (Rabs_triang (a - b) (b - c)). lra.
  - split; [| split].
    + apply almost_equal_true. rewrite Rabs_left; lra.
    + apply almost_equal_true. rewrite Rabs_left; lra.
    + unfold rigid2d_header.almost_equal.
      destruct (Rlt_dec (Rabs (0 - 12 / 10)) 1) as [H | _]; [| reflexivity].
      rewrite Rabs_left in H; lra.
Qed.

Lemma X25_almost_equal_laws_witness :
  0 < 1 / 2 /\ rigid2d_header.almost_equal 3 3 (1 / 2) = true /\
  - 1 <= 0 /\ rigid2d_header.almost_equal 3 3 (- 1) = false.
Proof.
  split; [lra |]. split.
  - apply (proj1 (proj2 X25_almost_equal_laws) 3 (1 / 2)). lra.
  - split; [lra |].
    apply (proj1 (proj2 (proj2 X25_almost_equal_laws)) 3 3 (- 1)). lra.
Defined.

(** X26.  The eight compile-time assertions of the header hold. *)
Theorem X26_header_static_assertions :
  rigid2d_header.almost_equal 0 0 rigid2d_header.default_epsilon = true /\
  rigid2d_header.almost_equal (1 / 1000) (5 / 1000) (1 / 10) = true /\
  rigid2d_header.almost_equal (- 1) (- (10001 / 10000)) (1 / 1000) = true /\
  rigid2d_header.almost_equal (rigid2d_header.deg2rad 0) 0
    rigid2d_header.default_epsilon = true /\
  rigid2d_header.almost_equal (rigid2d_header.deg2rad 180) rigid2d_header.PI
    rigid2d_header.default_epsilon = true /\
  rigid2d_header.almost_equal (rigid2d_header.rad2deg 0) 0
    rigid2d_header.default_epsilon = true /\
  rigid2d_header.almost_equal (rigid2d_header.rad2deg rigid2d_header.PI) 180
    rigid2d_header.default_epsilon = true /\
  rigid2d_header.almost_equal
    (rigid2d_header.deg2rad (rigid2d_header.rad2deg (21 / 10))) (21 / 10)
    rigid2d_header.default_epsilon = true.
Proof.
  assert (He : 0 < rigid2d_header.default_epsilon).
  { unfold rigid2d_header.default_epsilon.
    apply Rdiv_lt_0_compat; [lra | apply pow_lt; lra]. }
  assert (Hsame : forall a b, a = b ->
            rigid2d_header.almost_equal a b rigid2d_header.default_epsilon = true).
  { intros a b E. apply almost_equal_true. rewrite E.
    replace (b - b) with 0 by ring. rewrite Rabs_R0. exact He. }
  pose proof header_PI_pos as Hp.
  split; [apply Hsame; reflexivity |].
  split; [apply almost_equal_true; rewrite Rabs_left; lra |].
  split; [apply almost_equal_true; rewrite Rabs_right; lra |].
  split; [apply Hsame; unfold rigid2d_header.deg2rad; ring |].
  split; [apply Hsame; unfold rigid2d_header.deg2rad; field; lra |].
  split; [apply Hsame; unfold rigid2d_header.rad2deg; field; lra |].
  split; [apply Hsame; unfold rigid2d_header.rad2deg; field; lra |].
  apply Hsame. unfold rigid2d_header.deg2rad, rigid2d_header.rad2deg. field; lra.
Qed.
